(** * The capture streaming bridge

    A shallow embedding of the two acquisition scripts of the repository,
    [testbench/route_testbench_data.py] and
    [LocalScripts/EdgeRL_DataAcquisition.py]: the wait and fetch loops over
    the capture's state, the extraction of the channel vectors, the
    encoding of one sample row as float32 bytes, the chunked send over the
    data socket and the [try ... finally] that disposes the vendor objects.

    The scripts talk to three outside parties: the dSPACE XIL API objects
    (capture, port, capture results), the TCP socket and the clock.  Their
    answers are not decided by the scripts, so they are inputs of the model
    ([Platform], with the successive readings of the capture's state); what
    the scripts do with the answers is the model itself.  The calls to the
    socket, the clock, the capture and the port are logged in order. *)

From Stdlib Require Import PrimFloat SpecFloat FloatOps.
From Stdlib Require Import List ZArith Lia Bool Arith.
From Stdlib.Strings Require Import Byte.
From Stdlib.Strings Require String.
From Stdlib Require DecimalString.
Import String.StringSyntax.
Delimit Scope string_scope with string.
Bind Scope string_scope with String.string.
Abbreviation string := String.string.
Import ListNotations.

Set Implicit Arguments.

(* ================================================================== *)
(** ** Python values and control flow *)

Module Py.

(** A raised exception: the name of its class and its message. *)
Record exception : Type := Exc { exc_class : string; exc_arg : string }.

(** What a call comes to: it returns, it raises, or it has not come back
    (the callee blocks, or the observations given to the model end while
    the script is still looping). *)
Inductive outcome (A : Type) : Type :=
| Ret (a : A)
| Raise (e : exception)
| Pending.
Arguments Raise {A} e.
Arguments Pending {A}.

Definition bytes : Type := list byte.

(** [b[lo:hi]] for [0 <= lo], [0 <= hi]: indices clamp to the length. *)
Definition slice (b : bytes) (lo hi : nat) : bytes :=
  firstn (hi - lo) (skipn lo b).

(** [b[lo:]] *)
Definition slice_from (b : bytes) (lo : nat) : bytes := skipn lo b.

Definition ZeroDivisionError : exception :=
  Exc "ZeroDivisionError" "integer division or modulo by zero".

Definition NameError (name : string) : exception :=
  Exc "NameError" name.

(** [a // b] on non-negative integers. *)
Definition floordiv (a b : nat) : outcome nat :=
  match b with
  | 0 => Raise ZeroDivisionError
  | S _ => Ret (a / b)
  end.

End Py.
Import Py.

(* ================================================================== *)
(** ** The outside world: calls, program variables, platform answers *)

(** The calls the scripts make to the socket, the clock, the capture and
    the port, as they are logged.  Prints, reads of [DemoCapture.State] and
    the methods of a capture result are not logged. *)
Inductive Call : Type :=
| Sleep (ms : nat)               (* time.sleep(ms / 1000) *)
| Start                          (* DemoCapture.Start(DemoCaptureWriter) *)
| Connect                        (* data_socket.connect((TCP_IP, TCP_PORT_DATA)) *)
| Fetch                          (* DemoCapture.Fetch(False) *)
| Send (b : bytes)               (* data_socket.send(b) *)
| CloseData                      (* data_socket.close() *)
| CloseWeights                   (* weights_socket.close() *)
| DisposeCapture                 (* DemoCapture.Dispose() *)
| DisposePort.                   (* DemoMAPort.Dispose() *)

(** The module-level variables the scripts assign, and the log. *)
Record World : Type := mkWorld {
  calls : list Call;            (* oldest first *)
  DemoCapture : bool;           (* false: None *)
  DemoMAPort : bool;            (* false: None *)
  loop_i : option nat;          (* the variable i of the chunk loop; None: unbound *)
  capture_count : option nat    (* None: unbound, as it is until the wait loop is over *)
}.

Definition initial : World :=
  {| calls := []; DemoCapture := false; DemoMAPort := false;
     loop_i := None; capture_count := None |}.

Definition is_send (c : Call) : bool :=
  match c with Send _ => true | _ => false end.

Definition is_fetch (c : Call) : bool :=
  match c with Fetch => true | _ => false end.

(** The payloads handed to [data_socket.send], in order. *)
Fixpoint sent (cs : list Call) : list bytes :=
  match cs with
  | [] => []
  | Send b :: cs' => b :: sent cs'
  | _ :: cs' => sent cs'
  end.

Definition count (p : Call -> bool) (cs : list Call) : nat :=
  length (filter p cs).

Definition IO (A : Type) : Type := World -> World * outcome A.

Definition ret {A} (a : A) : IO A := fun w => (w, Ret a).

Definition raise {A} (e : exception) : IO A := fun w => (w, Raise e).

Definition bind {A B} (m : IO A) (k : A -> IO B) : IO B :=
  fun w =>
    match m w with
    | (w', Ret a) => k a w'
    | (w', Raise e) => (w', Raise e)
    | (w', Pending) => (w', Pending)
    end.

Declare Scope io_scope.
Delimit Scope io_scope with io.
Notation "x <- m ;; k" := (bind m (fun x => k))
  (at level 61, m at next level, right associativity) : io_scope.
Notation "m ;; k" := (bind m (fun _ => k))
  (at level 61, right associativity) : io_scope.
Open Scope io_scope.

Definition lift {A} (o : outcome A) : IO A := fun w => (w, o).

Definition log (c : Call) (w : World) : World :=
  {| calls := calls w ++ [c]; DemoCapture := DemoCapture w;
     DemoMAPort := DemoMAPort w; loop_i := loop_i w;
     capture_count := capture_count w |}.

(** A logged call with the platform's answer. *)
Definition call {A} (c : Call) (answer : outcome A) : IO A :=
  fun w => (log c w, answer).

Definition set_i (k : nat) : IO unit :=
  fun w => ({| calls := calls w; DemoCapture := DemoCapture w;
               DemoMAPort := DemoMAPort w; loop_i := Some k;
               capture_count := capture_count w |}, Ret tt).

(** Reading [i]: a [NameError] where no loop has bound it. *)
Definition get_i : IO nat :=
  fun w => match loop_i w with
           | Some k => (w, Ret k)
           | None => (w, Raise (NameError "name 'i' is not defined"))
           end.

Definition set_DemoCapture (v : bool) : IO unit :=
  fun w => ({| calls := calls w; DemoCapture := v;
               DemoMAPort := DemoMAPort w; loop_i := loop_i w;
               capture_count := capture_count w |}, Ret tt).

Definition set_DemoMAPort (v : bool) : IO unit :=
  fun w => ({| calls := calls w; DemoCapture := DemoCapture w;
               DemoMAPort := v; loop_i := loop_i w;
               capture_count := capture_count w |}, Ret tt).

(** [capture_count = k] *)
Definition set_capture_count (k : nat) : IO unit :=
  fun w => ({| calls := calls w; DemoCapture := DemoCapture w;
               DemoMAPort := DemoMAPort w; loop_i := loop_i w;
               capture_count := Some k |}, Ret tt).

(** [capture_count += 1]: a [NameError] where the name is unbound. *)
Definition incr_capture_count : IO unit :=
  fun w => match capture_count w with
           | Some k => set_capture_count (k + 1) w
           | None =>
               (w, Raise (NameError "name 'capture_count' is not defined"))
           end.

(** [for i in ks: body] with the module-level loop variable [i]. *)
Fixpoint for_i (ks : list nat) (body : nat -> IO unit) : IO unit :=
  match ks with
  | [] => ret tt
  | k :: ks' => set_i k ;; body k ;; for_i ks' body
  end.

(** [for x in xs: body] *)
Fixpoint for_each {A} (xs : list A) (body : A -> IO unit) : IO unit :=
  match xs with
  | [] => ret tt
  | x :: xs' => body x ;; for_each xs' body
  end.

(** [try: body finally: handler].  A body that has not come back keeps the
    handler from running. *)
Definition try_finally {A} (body : IO A) (handler : IO unit) : IO A :=
  fun w =>
    match body w with
    | (w1, Ret a) =>
        match handler w1 with
        | (w2, Ret _) => (w2, Ret a)
        | (w2, Raise e) => (w2, Raise e)
        | (w2, Pending) => (w2, Pending)
        end
    | (w1, Raise e) =>
        match handler w1 with
        | (w2, Ret _) => (w2, Raise e)
        | (w2, Raise e') => (w2, Raise e')
        | (w2, Pending) => (w2, Pending)
        end
    | (w1, Pending) => (w1, Pending)
    end.

(* ================================================================== *)
(** ** The chunked send (route_testbench_data.py 330-337,
       EdgeRL_DataAcquisition.py 439-446) *)

Module Transmitter.

Definition BUFFER_SIZE : nat := 988.

Section WithSocket.

(** The answer of the n-th call of [data_socket.send] (its return value,
    the number of bytes taken, is dropped by the scripts). *)
Variable send : nat -> outcome unit.

Definition data_socket_send (b : bytes) : IO unit :=
  fun w => call (Send b) (send (count is_send (calls w))) w.

(** The body under [# send bytes], for a buffer size [BUFFER_SIZE]. *)
Definition send_bytes (BUFFER_SIZE : nat) (b : bytes) : IO unit :=
  if length b <=? BUFFER_SIZE then
    data_socket_send b
  else
    q <- lift (floordiv (length b) BUFFER_SIZE) ;;
    for_i (seq 0 q)
      (fun i => data_socket_send
                  (slice b (i * BUFFER_SIZE) ((i + 1) * BUFFER_SIZE))) ;;
    i <- get_i ;;
    if (i + 1) * BUFFER_SIZE <? length b then
      data_socket_send (slice_from b ((i + 1) * BUFFER_SIZE))
    else
      ret tt.

End WithSocket.

(** [ceil(n / m)] *)
Definition ceil_div (n m : nat) : nat := (n + m - 1) / m.

End Transmitter.

(* ================================================================== *)
(** ** float32 values and their bytes *)

Module Float32.

Local Open Scope Z_scope.

(** A float32 value is its IEEE-754 binary32 bit pattern: sign (bit 31),
    exponent field (bits 30-23), fraction (bits 22-0).  Nothing in the
    scripts computes with the values; they are converted and laid out. *)
Definition f32 : Type := Z.

Definition is_f32 (w : f32) : Prop := 0 <= w < 2 ^ 32.

Definition exponent_field (w : f32) : Z := (w / 2 ^ 23) mod 2 ^ 8.

(** Neither an infinity nor a NaN. *)
Definition finite (w : f32) : Prop := exponent_field w <> 255.

(** The bit pattern of a binary32 value given as sign, mantissa and
    exponent ([prec = 24], [emax = 128]).  [spec_float] keeps no NaN
    payload: every NaN gets the default quiet pattern. *)
Definition bits_of_SF32 (x : spec_float) : f32 :=
  match x with
  | S754_zero s => if s then 2 ^ 31 else 0
  | S754_infinity s => (if s then 2 ^ 31 else 0) + 255 * 2 ^ 23
  | S754_nan => 255 * 2 ^ 23 + 2 ^ 22
  | S754_finite s m e =>
      (if s then 2 ^ 31 else 0) +
      (if Zpos m <? 2 ^ 23 then Zpos m
       else (e + 150) * 2 ^ 23 + (Zpos m - 2 ^ 23))
  end.

(** The C conversion of a double to a float: round to nearest, ties to
    even; what is too large becomes an infinity. *)
Definition SF64_to_SF32 (x : spec_float) : spec_float :=
  match x with
  | S754_finite s m e => binary_round 24 128 s m e
  | _ => x
  end.

(** [np.float32(x)] for a Python float [x]. *)
Definition float32 (x : float) : f32 :=
  bits_of_SF32 (SF64_to_SF32 (Prim2SF x)).

Definition byte_of_Z (z : Z) : byte :=
  match Byte.of_N (Z.to_N (z mod 256)) with
  | Some b => b
  | None => x00
  end.

Definition Z_of_byte (b : byte) : Z := Z.of_N (Byte.to_N b).

(** The four bytes of a value in memory, lowest first (the scripts run on
    the little-endian host of the XIL API server). *)
Definition le_bytes (w : f32) : bytes :=
  [byte_of_Z w; byte_of_Z (w / 2 ^ 8);
   byte_of_Z (w / 2 ^ 16); byte_of_Z (w / 2 ^ 24)].

End Float32.
Import Float32.

(** The part of numpy the testbench script uses. *)
Module numpy.

(** The error of [np.array] for [n] sequences that are not all of one
    length, with a numeric dtype. *)
Definition ValueError_inhomogeneous (n : nat) : exception :=
  Exc "ValueError"
      (String.append
         "setting an array element with a sequence. The requested array has an inhomogeneous shape after 1 dimensions. The detected shape was ("
         (String.append (DecimalString.NilZero.string_of_uint (Nat.to_uint n))
                        ",) + inhomogeneous part.")).

(** All the sequences have the length of the first. *)
Definition homogeneous (seqs : list (list float)) : bool :=
  match seqs with
  | [] => true
  | s :: rest => forallb (fun s' => length s' =? length s) rest
  end.

(** [np.array(seqs, dtype=np.float32)] for a list of sequences of floats:
    the array is kept as the list of its rows.  For a numeric dtype numpy
    refuses sequences of different lengths. *)
Definition array (seqs : list (list float)) : outcome (list (list f32)) :=
  if homogeneous seqs then Ret (map (map float32) seqs)
  else Raise (ValueError_inhomogeneous (length seqs)).

(** [a.T]: entry (k, c) of the result is entry (c, k) of [a]. *)
Definition T (a : list (list f32)) : list (list f32) :=
  map (fun k => map (fun row => nth k row 0%Z) a)
      (seq 0 (length (hd [] a))).

(** [row.tobytes()] of a one-dimensional float32 array. *)
Definition tobytes (row : list f32) : bytes := flat_map le_bytes row.

End numpy.

(** The part of struct the EdgeRL script uses. *)
Module struct.

(** [struct.pack('f', val)] for a Python float [val].  The format has no
    byte-order prefix, so it is the native one: the double is converted
    with the C cast [(float)] and the four bytes of the result are copied
    as they lie in memory.  Nothing is refused: a double too large for a
    float goes out as an infinity (the OverflowError of the standard
    formats ['<f'] and ['>f'] is not raised here). *)
Definition pack_f (val : float) : outcome bytes :=
  Ret (le_bytes (bits_of_SF32 (SF64_to_SF32 (Prim2SF val)))).

End struct.

(* ================================================================== *)
(** ** The vendor objects *)

Module XIL.

(** Modelled from the spec: the enumeration [CaptureState] of the ASAM
    XIL assemblies, which the scripts import.  The scripts name
    [eRUNNING] and [eFINISHED]; the two earlier states are the spec's
    Idle and Armed. *)
Inductive CaptureState : Type := Idle | Armed | eRUNNING | eFINISHED.

Definition state_eqb (a b : CaptureState) : bool :=
  match a, b with
  | Idle, Idle | Armed, Armed | eRUNNING, eRUNNING | eFINISHED, eFINISHED => true
  | _, _ => false
  end.

(** A signal of a capture result: [convertIBaseValue(x.FcnValues).Value]
    is its vector of function values. *)
Record SignalValue : Type := { FcnValues : list float }.

Definition convertIBaseValue (v : list float) : list float := v.
Definition Value (v : list float) : list float := v.

(** A capture result is used through one method,
    [ExtractSignalValue(task, variable)]; how it answers is the vendor's
    business. *)
Record CaptureResult : Type := {
  ExtractSignalValue : string -> string -> outcome SignalValue
}.

Definition TestbenchPortException (description : string) : exception :=
  Exc "TestbenchPortException" description.

End XIL.
Import XIL.

(** How far the set-up of the [try] block gets (TestbenchFactory to
    [DemoCapture.Start]): the many vendor calls matter here only by the
    variables that are assigned when one of them raises. *)
Inductive Bootstrap : Type :=
| FailsBeforePort (e : exception)      (* before DemoMAPort = ...CreateMAPort(...) *)
| FailsBeforeCapture (e : exception)   (* DemoMAPort assigned, DemoCapture not yet *)
| FailsBeforeStart (e : exception)     (* both assigned; up to DemoCapture.Start *)
| Boots.

(** The answers of the outside world. *)
Record Platform : Type := {
  bootstrap : Bootstrap;
  connect : outcome unit;                      (* data_socket.connect *)
  state_reads : list (outcome CaptureState);   (* successive reads of DemoCapture.State *)
  fetch : nat -> outcome CaptureResult;        (* the n-th DemoCapture.Fetch(False) *)
  send : nat -> outcome unit;                  (* the n-th data_socket.send *)
  dispose_capture : outcome unit;              (* DemoCapture.Dispose() *)
  dispose_port : outcome unit                  (* DemoMAPort.Dispose() *)
}.

(** [[f(x) for x in xs]] *)
Fixpoint list_comp {A B} (f : A -> IO B) (xs : list A) : IO (list B) :=
  match xs with
  | [] => ret []
  | x :: xs' => y <- f x ;; ys <- list_comp f xs' ;; ret (y :: ys)
  end.

(** [zip(a, b, c, d)], each tuple as the list of its components. *)
Fixpoint zip4 {A} (a b c d : list A) : list (list A) :=
  match a, b, c, d with
  | x :: a', y :: b', z :: c', t :: d' => [x; y; z; t] :: zip4 a' b' c' d'
  | _, _, _, _ => []
  end.

(* ================================================================== *)
(** ** testbench/route_testbench_data.py *)

Module route_testbench_data.

Definition Task : string := "ML_Expert_Main".
Definition slaveTask : string := Task.
Definition mvp : string := "DS1202 MicroLabBox()://Model Root".

Definition i_d_soll : string := String.append mvp "/I_d_soll/Out1".
Definition i_q_soll : string := String.append mvp "/I_q_soll/Out1".
Definition i_d_ist : string := String.append mvp "/I_dq/I_d_ist".
Definition i_q_ist : string := String.append mvp "/I_dq/I_q_ist".
Definition var_capture_l : list string := [i_d_soll; i_q_soll; i_d_ist; i_q_ist].

Definition extract_value (captured_result : CaptureResult) (var_lbl : string)
  : IO (list float) :=
  x <- lift (ExtractSignalValue captured_result slaveTask var_lbl) ;;
  ret (Value (convertIBaseValue (FcnValues x))).

(** [np.array([extract_value(demo_captured_result, s) for s in var_capture_l],
              dtype=np.float32).T] *)
Definition fetched_signals_arr (var_capture_l : list string)
           (demo_captured_result : CaptureResult) : IO (list (list f32)) :=
  values <- list_comp (extract_value demo_captured_result) var_capture_l ;;
  a <- lift (numpy.array values) ;;
  ret (numpy.T a).

Section Loop.
Variable send : nat -> outcome unit.
Variable var_capture_l : list string.
Variable BUFFER_SIZE : nat.

(** One pass of the fetch loop after the fetch: lines 317-337. *)
Definition process (demo_captured_result : CaptureResult) : IO unit :=
  arr <- fetched_signals_arr var_capture_l demo_captured_result ;;
  for_each arr
    (fun row =>
       let b := numpy.tobytes row in
       Transmitter.send_bytes send BUFFER_SIZE b).
End Loop.

End route_testbench_data.

(* ================================================================== *)
(** ** LocalScripts/EdgeRL_DataAcquisition.py *)

Module EdgeRL_DataAcquisition.

Definition Task : string := "ML_Expert_Main".
Definition slaveTask : string := Task.
Definition masterVariablesPrefix : string := "ds1202()://Model Root/".

Definition stateCurrentId : string :=
  String.append masterVariablesPrefix "I_dq/I_d_ist".
Definition stateCurrentIq : string :=
  String.append masterVariablesPrefix "I_dq/I_q_ist".
Definition trajectoryIdx : string :=
  String.append masterVariablesPrefix "SF_Sollwertgeber/Idx".
Definition trajectoryReset : string :=
  String.append masterVariablesPrefix "SF_Sollwertgeber/reset".

(** [b.join((struct.pack('f', val) for val in date))] *)
Fixpoint join_pack (date : list float) : outcome bytes :=
  match date with
  | [] => Ret []
  | val :: rest =>
      match struct.pack_f val with
      | Ret p =>
          match join_pack rest with
          | Ret ps => Ret (p ++ ps)
          | Raise e => Raise e
          | Pending => Pending
          end
      | Raise e => Raise e
      | Pending => Pending
      end
  end.

Definition signal_values (DemoCaptureResult : CaptureResult) (variable : string)
  : IO (list float) :=
  signalValue <- lift (ExtractSignalValue DemoCaptureResult slaveTask variable) ;;
  ret (Value (convertIBaseValue (FcnValues signalValue))).

Section Loop.
Variable send : nat -> outcome unit.
Variable BUFFER_SIZE : nat.

(** One pass of the fetch loop after the fetch: lines 363-449. *)
Definition process (DemoCaptureResult : CaptureResult) : IO unit :=
  currentIdValues <- signal_values DemoCaptureResult stateCurrentId ;;
  currentIqValues <- signal_values DemoCaptureResult stateCurrentIq ;;
  trajectoryIdxValue <- signal_values DemoCaptureResult trajectoryIdx ;;
  trajectoryResetValue <- signal_values DemoCaptureResult trajectoryReset ;;
  for_each (zip4 currentIdValues currentIqValues
                 trajectoryIdxValue trajectoryResetValue)
    (fun date =>
       b <- lift (join_pack date) ;;
       Transmitter.send_bytes send BUFFER_SIZE b).
End Loop.

End EdgeRL_DataAcquisition.

(* ================================================================== *)
(** ** The session: set-up, the two loops, the closes, the finally block *)

Inductive Script : Type := Testbench | EdgeRL.

Module Session.

Section WithPlatform.

Variable script : Script.
Variable pl : Platform.

Definition process (r : CaptureResult) : IO unit :=
  match script with
  | Testbench =>
      route_testbench_data.process (send pl)
        route_testbench_data.var_capture_l Transmitter.BUFFER_SIZE r
  | EdgeRL =>
      EdgeRL_DataAcquisition.process (send pl) Transmitter.BUFFER_SIZE r
  end.

(** Up to [DemoCapture.Start(DemoCaptureWriter)]; then the connect,
    which the testbench script has commented out, and the sleep. *)
Definition setup : IO unit :=
  match bootstrap pl with
  | FailsBeforePort e => raise e
  | FailsBeforeCapture e => set_DemoMAPort true ;; raise e
  | FailsBeforeStart e =>
      set_DemoMAPort true ;; set_DemoCapture true ;; raise e
  | Boots =>
      set_DemoMAPort true ;; set_DemoCapture true ;;
      call Start (Ret tt) ;;
      match script with
      | Testbench => ret tt
      | EdgeRL => call Connect (connect pl)
      end ;;
      call (Sleep 2000) (Ret tt)
  end.

(** [while DemoCapture.State != CaptureState.eRUNNING: time.sleep(0.02)];
    the result is what is left of the readings. *)
Fixpoint wait_until_running (reads : list (outcome CaptureState))
  : IO (list (outcome CaptureState)) :=
  match reads with
  | [] => lift Pending
  | r :: rest =>
      state <- lift r ;;
      if negb (state_eqb state eRUNNING) then
        call (Sleep 20) (Ret tt) ;; wait_until_running rest
      else ret rest
  end.

Definition DemoCapture_Fetch : IO CaptureResult :=
  fun w => call Fetch (fetch pl (count is_fetch (calls w))) w.

(** [while DemoCapture.State != CaptureState.eFINISHED: ...] *)
Fixpoint fetch_until_finished (reads : list (outcome CaptureState))
  : IO (list (outcome CaptureState)) :=
  match reads with
  | [] => lift Pending
  | r :: rest =>
      state <- lift r ;;
      if negb (state_eqb state eFINISHED) then
        demo_captured_result <- DemoCapture_Fetch ;;
        process demo_captured_result ;;
        incr_capture_count ;;
        fetch_until_finished rest
      else ret rest
  end.

(** The body of the [try]: the set-up, the wait loop, [capture_count = 0],
    the fetch loop and the two closes.  The clause
    [except TestbenchPortException as ex] prints and re-raises, so it
    changes neither the log nor the outcome.  The sleeps and the closes
    are taken to return; an interrupt of the run is an exception of one of
    the platform's answers (KeyboardInterrupt from a reading, say). *)
Definition body : IO unit :=
  setup ;;
  rest <- wait_until_running (state_reads pl) ;;
  set_capture_count 0 ;;
  _ <- fetch_until_finished rest ;;
  call CloseData (Ret tt) ;;
  call CloseWeights (Ret tt).

(** The [finally] block. *)
Definition dispose : IO unit :=
  (fun w =>
     if DemoCapture w then
       (call DisposeCapture (dispose_capture pl) ;; set_DemoCapture false) w
     else ret tt w) ;;
  (fun w =>
     if DemoMAPort w then
       (call DisposePort (dispose_port pl) ;; set_DemoMAPort false) w
     else ret tt w).

Definition main : IO unit := try_finally body dispose.

End WithPlatform.

End Session.

(* ================================================================== *)
(** ** The consumer's side of the wire *)

Module Consumer.

Local Open Scope Z_scope.

(** Modelled from the spec: one little-endian float32 value of the wire
    format (section 6), as its bit pattern; the reader itself is not among
    the sources. *)
Definition f32_of_le (b0 b1 b2 b3 : byte) : f32 :=
  Z_of_byte b0 + 2 ^ 8 * Z_of_byte b1
  + 2 ^ 16 * Z_of_byte b2 + 2 ^ 24 * Z_of_byte b3.

(** Modelled from the spec: the reader of the wire format, which is not
    among the sources (RemoteScripts/remote_nc.py stops after the
    constructor's docstring).  Section 6 of the spec: back-to-back
    little-endian float32 values. *)
Fixpoint frombuffer (b : bytes) : list f32 :=
  match b with
  | b0 :: b1 :: b2 :: b3 :: rest => f32_of_le b0 b1 b2 b3 :: frombuffer rest
  | _ => []
  end.

(** Modelled from the spec: the first [n] records of [C] values each. *)
Fixpoint rows (n C : nat) (values : list f32) : list (list f32) :=
  match n with
  | O => []
  | S n' => firstn C values :: rows n' C (skipn C values)
  end.

(** Modelled from the spec: "grouped conceptually into records of C
    values", the channel count being known to the consumer. *)
Definition decode (C : nat) (b : bytes) : list (list f32) :=
  let values := frombuffer b in
  rows (Nat.div (length values) C) C values.

End Consumer.

(* ================================================================== *)
(** ** Notions used to state the properties *)

(** The chunks of one call of [send_bytes] in closed form;
    [send_bytes_writes] below shows that the code issues exactly these. *)
Definition writes (M : nat) (b : bytes) : list bytes :=
  if length b <=? M then [b]
  else
    let q := length b / M in
    map (fun k => slice b (k * M) ((k + 1) * M)) (seq 0 q)
    ++ (if q * M <? length b then [slice_from b (q * M)] else []).

(** The world after the calls [cs], with [i] left at [i']. *)
Definition after (w : World) (cs : list Call) (i' : option nat) : World :=
  {| calls := calls w ++ cs; DemoCapture := DemoCapture w;
     DemoMAPort := DemoMAPort w; loop_i := i';
     capture_count := capture_count w |}.

(** A socket that takes every write. *)
Definition accepts (send : nat -> outcome unit) : Prop :=
  forall n, send n = Ret tt.

(** A capture result that holds the given signals of one task, for the
    examples: a variable it does not hold is reported the vendor's way. *)
Fixpoint lookup (signals : list (string * list float)) (variable : string)
  : outcome SignalValue :=
  match signals with
  | [] => Raise (TestbenchPortException variable)
  | (name, values) :: rest =>
      if String.eqb name variable then Ret {| FcnValues := values |}
      else lookup rest variable
  end.

Definition capture_result (task : string) (signals : list (string * list float))
  : CaptureResult :=
  {| ExtractSignalValue := fun t variable =>
       if String.eqb t task then lookup signals variable
       else Raise (TestbenchPortException t) |}.

(** The capture result [r] holds, for the task, the vectors [values] under
    the variables [variables], in that order. *)
Definition holds (r : CaptureResult) (task : string)
           (variables : list string) (values : list (list float)) : Prop :=
  Forall2 (fun variable v =>
             ExtractSignalValue r task variable = Ret {| FcnValues := v |})
          variables values.

Definition is_sleep (c : Call) : bool :=
  match c with Sleep _ => true | _ => false end.

Definition is_close (c : Call) : bool :=
  match c with CloseData | CloseWeights => true | _ => false end.

Definition is_dispose (c : Call) : bool :=
  match c with DisposeCapture | DisposePort => true | _ => false end.

(** [m] only adds calls that satisfy [p] to the log and leaves the two
    object variables as they are. *)
Definition appends (p : Call -> bool) {A} (m : IO A) : Prop :=
  forall w w' o,
    m w = (w', o) ->
    exists cs, calls w' = calls w ++ cs /\ forallb p cs = true /\
               DemoCapture w' = DemoCapture w /\
               DemoMAPort w' = DemoMAPort w.


(** Calls of the working part of a run: neither a close nor a dispose. *)
Definition before_teardown (c : Call) : bool :=
  negb (is_close c || is_dispose c).

(** Whether the set-up got as far as assigning the variable. *)
Definition capture_created (pl : Platform) : bool :=
  match bootstrap pl with
  | FailsBeforePort _ | FailsBeforeCapture _ => false
  | FailsBeforeStart _ | Boots => true
  end.

Definition port_created (pl : Platform) : bool :=
  match bootstrap pl with
  | FailsBeforePort _ => false
  | FailsBeforeCapture _ | FailsBeforeStart _ | Boots => true
  end.

(** The calls of the set-up when nothing fails. *)
Definition setup_calls (script : Script) : list Call :=
  match script with
  | Testbench => [Start; Sleep 2000]
  | EdgeRL => [Start; Connect; Sleep 2000]
  end.

(** The capture result [r] is one the script's pass turns into the records
    [recs]: it holds vectors of one length under the script's variables
    (for the EdgeRL script [recs] are the packed tuples of the zip). *)
Definition delivers (script : Script) (r : CaptureResult) (recs : list bytes)
  : Prop :=
  match script with
  | Testbench =>
      exists (values : list (list float)) (N : nat),
        holds r route_testbench_data.slaveTask
              route_testbench_data.var_capture_l values /\
        Forall (fun v => length v = N) values /\
        recs = map numpy.tobytes (numpy.T (map (map float32) values))
  | EdgeRL =>
      exists a b c d : list float,
        holds r EdgeRL_DataAcquisition.slaveTask
              [EdgeRL_DataAcquisition.stateCurrentId;
               EdgeRL_DataAcquisition.stateCurrentIq;
               EdgeRL_DataAcquisition.trajectoryIdx;
               EdgeRL_DataAcquisition.trajectoryReset] [a; b; c; d] /\
        Forall2 (fun date p => EdgeRL_DataAcquisition.join_pack date = Ret p)
                (zip4 a b c d) recs
  end.

(** [capture_count] has been assigned. *)
Definition counting (w : World) : Prop := capture_count w <> None.

(** [m], started in [w], returns [a] after exactly the calls [cs], the two
    object variables being as before and [capture_count] still bound if it
    was. *)
Definition runs {A} (m : IO A) (w : World) (cs : list Call) (a : A) : Prop :=
  exists w', m w = (w', Ret a) /\ calls w' = calls w ++ cs /\
             DemoCapture w' = DemoCapture w /\ DemoMAPort w' = DemoMAPort w /\
             (counting w -> counting w').

(** A capture result of the testbench with one sample of each of the four
    variables, for the examples. *)
Definition sample_batch : CaptureResult :=
  capture_result route_testbench_data.slaveTask
    [(route_testbench_data.i_d_soll, [1%float]);
     (route_testbench_data.i_q_soll, [2%float]);
     (route_testbench_data.i_d_ist, [3%float]);
     (route_testbench_data.i_q_ist, [4%float])].

Definition sample_record : bytes :=
  numpy.tobytes [float32 1%float; float32 2%float;
                 float32 3%float; float32 4%float].

(** The scenario of the spec: the state is read as Idle, Armed, Running
    and then [k] more times Running before Finished; every fetch returns
    [sample_batch]; nothing fails. *)
Definition scenario_platform (k : nat) : Platform :=
  {| bootstrap := Boots;
     connect := Ret tt;
     state_reads := map (@Ret CaptureState) [Idle; Armed]
                    ++ Ret eRUNNING :: repeat (Ret eRUNNING) k
                    ++ Ret eFINISHED :: [];
     fetch := fun _ => Ret sample_batch;
     send := fun _ => Ret tt;
     dispose_capture := Ret tt;
     dispose_port := Ret tt |}.

(** A run whose first fetch raises. *)
Definition failing_platform : Platform :=
  {| bootstrap := Boots;
     connect := Ret tt;
     state_reads := [Ret eRUNNING; Ret eRUNNING; Ret eFINISHED];
     fetch := fun _ => Raise (TestbenchPortException "Fetch");
     send := fun _ => Ret tt;
     dispose_capture := Ret tt;
     dispose_port := Ret tt |}.

(** A capture result of the EdgeRL script whose first variable has five
    samples and whose second has four, for the examples. *)
Definition uneven_batch : CaptureResult :=
  capture_result EdgeRL_DataAcquisition.slaveTask
    [(EdgeRL_DataAcquisition.stateCurrentId,
      [1%float; 2%float; 3%float; 4%float; 5%float]);
     (EdgeRL_DataAcquisition.stateCurrentIq,
      [1%float; 2%float; 3%float; 4%float]);
     (EdgeRL_DataAcquisition.trajectoryIdx,
      [0%float; 1%float; 2%float; 3%float; 4%float]);
     (EdgeRL_DataAcquisition.trajectoryReset,
      [0%float; 0%float; 0%float; 0%float; 0%float])].

(* ================================================================== *)
(** ** The rest of the scripts *)

(** The search for the configuration file that precedes the [try] block of
    testbench/route_testbench_data.py (lines 120-127). *)
Module Config.

Definition MAPort_cfg_file : string := "MAPortConfigDS1202.xml".

(** [name in path] for two strings. *)
Definition contains (name path : string) : bool :=
  match String.index 0 name path with
  | Some _ => true
  | None => false
  end.

Definition FileNotFoundError (name : string) : exception :=
  Exc "FileNotFoundError"
      (String.append "File " (String.append name " not found")).

(** The [for p in Path.cwd().glob(...)] loop over the paths the glob
    yields, in its order; the argument is the value of [MAPort_cfg_path]
    so far. *)
Fixpoint scan (name : string) (paths : list string)
         (MAPort_cfg_path : option string) : option string :=
  match paths with
  | [] => MAPort_cfg_path
  | p :: rest =>
      scan name rest (if contains name p then Some p else MAPort_cfg_path)
  end.

Definition find (name : string) (paths : list string) : outcome string :=
  match scan name paths None with
  | Some p => Ret p
  | None => Raise (FileNotFoundError name)
  end.

End Config.

(** [input_parser] of RemoteScripts/workstation_script.py (lines 37-43). *)
Module workstation_script.

Inductive Console : Type :=
| Printed (msg : string)     (* print(msg) *)
| Closed (k : nat).          (* objects_to_close[k].close() *)

Definition EOFError : exception := Exc "EOFError" "EOF when reading a line".

(** The [while msg != 'c'] loop on the lines the console still holds;
    [input()] at the end of the input raises. *)
Fixpoint read_loop (lines : list string) : list Console * outcome unit :=
  match lines with
  | [] => ([], Raise EOFError)
  | msg :: rest =>
      if String.eqb msg "c" then ([Printed msg], Ret tt)
      else let (events, o) := read_loop rest in (Printed msg :: events, o)
  end.

(** The [for close in objects_to_close] loop from the [k]-th object on;
    an object is given by what its [close()] comes to. *)
Fixpoint close_loop (k : nat) (objects_to_close : list (outcome unit))
  : list Console * outcome unit :=
  match objects_to_close with
  | [] => ([], Ret tt)
  | Ret _ :: rest =>
      let (events, o) := close_loop (S k) rest in (Closed k :: events, o)
  | Raise e :: _ => ([Closed k], Raise e)
  | Pending :: _ => ([Closed k], Pending)
  end.

Definition input_parser (lines : list string)
           (objects_to_close : list (outcome unit))
  : list Console * outcome unit :=
  match read_loop lines with
  | (events, Ret _) =>
      let (events', o) := close_loop 0 objects_to_close in
      (events ++ events', o)
  | (events, o) => (events, o)
  end.

End workstation_script.

(** [m], started in a world where [P] holds, ends in a world where [N]
    holds when it returns and where [E] holds when it does not. *)
Definition triple {A} (P : World -> Prop) (m : IO A) (N E : World -> Prop)
  : Prop :=
  forall w w' o,
    m w = (w', o) -> P w ->
    match o with
    | Ret _ => N w'
    | _ => E w'
    end.

(** A property of the log and of [capture_count], as one of the world. *)
Definition on (phi : list Call -> option nat -> Prop) : World -> Prop :=
  fun w => phi (calls w) (capture_count w).

(** A call that is neither a fetch nor a send. *)
Definition neutral (c : Call) : bool := negb (is_fetch c || is_send c).

(** The socket of the examples that breaks at its second write. *)
Definition second_write_breaks : nat -> outcome unit :=
  fun n => if n =? 1 then Raise (Exc "ConnectionResetError" "") else Ret tt.

(** The scenario with three passes on the socket that breaks at its
    second write. *)
Definition broken_socket_platform : Platform :=
  {| bootstrap := Boots;
     connect := Ret tt;
     state_reads := state_reads (scenario_platform 3);
     fetch := fun _ => Ret sample_batch;
     send := second_write_breaks;
     dispose_capture := Ret tt;
     dispose_port := Ret tt |}.

(** A run of the EdgeRL script whose connect is refused. *)
Definition refused_platform : Platform :=
  {| bootstrap := Boots;
     connect := Raise (Exc "ConnectionRefusedError" "");
     state_reads := [Ret eRUNNING; Ret eFINISHED];
     fetch := fun _ => Ret uneven_batch;
     send := fun _ => Ret tt;
     dispose_capture := Ret tt;
     dispose_port := Ret tt |}.

(** A run whose first fetch raises and whose capture cannot be disposed. *)
Definition undisposable_platform : Platform :=
  {| bootstrap := Boots;
     connect := Ret tt;
     state_reads := [Ret eRUNNING; Ret eRUNNING; Ret eFINISHED];
     fetch := fun _ => Raise (TestbenchPortException "Fetch");
     send := fun _ => Ret tt;
     dispose_capture := Raise (TestbenchPortException "Dispose");
     dispose_port := Ret tt |}.

(* ================================================================== *)
(** * Properties *)

(** ** The model on small inputs *)

Example float32_one : float32 1%float = 0x3F800000%Z.
Proof. reflexivity. Qed.

Example float32_tie_down : float32 0x1.000001p+0%float = 0x3F800000%Z.
Proof. vm_compute. reflexivity. Qed.

Example float32_tie_up : float32 0x1.000003p+0%float = 0x3F800002%Z.
Proof. vm_compute. reflexivity. Qed.

Example float32_overflows : float32 0x1p+128%float = 0x7F800000%Z.
Proof. vm_compute. reflexivity. Qed.

Example pack_f_overflows :
  struct.pack_f 0x1p+128%float = Ret [x00; x00; x80; x7f] /\
  struct.pack_f (-0x1p+1000)%float = Ret [x00; x00; x80; xff] /\
  struct.pack_f 0x1.99999ap-4%float = Ret [xcd; xcc; xcc; x3d].
Proof. repeat split; vm_compute; reflexivity. Qed.

Example array_uneven :
  numpy.array [[1%float; 2%float]; [3%float]]
  = Raise (Exc "ValueError"
             "setting an array element with a sequence. The requested array has an inhomogeneous shape after 1 dimensions. The detected shape was (2,) + inhomogeneous part.").
Proof. reflexivity. Qed.

Example tobytes_one : numpy.tobytes [float32 1%float] = [x00; x00; x80; x3f].
Proof. vm_compute. reflexivity. Qed.

Example send_bytes_three_chunks :
  sent (calls (fst (Transmitter.send_bytes (fun _ => Ret tt) 2
                      [x01; x02; x03; x04; x05] initial)))
  = [[x01; x02]; [x03; x04]; [x05]].
Proof. reflexivity. Qed.

Example send_bytes_zero_buffer :
  Transmitter.send_bytes (fun _ => Ret tt) 0 [x01] initial
  = (initial, Raise ZeroDivisionError).
Proof. reflexivity. Qed.

Example send_bytes_broken_socket :
  Transmitter.send_bytes
    (fun n => if n =? 1 then Raise (Exc "ConnectionResetError" "") else Ret tt)
    2 [x01; x02; x03; x04; x05] initial
  = ({| calls := [Send [x01; x02]; Send [x03; x04]];
        DemoCapture := false; DemoMAPort := false;
        loop_i := Some 1; capture_count := None |},
     Raise (Exc "ConnectionResetError" "")).
Proof. reflexivity. Qed.

Example scenario_log :
  calls (fst (Session.main Testbench (scenario_platform 1) initial))
  = [Start; Sleep 2000; Sleep 20; Sleep 20; Fetch; Send sample_record;
     CloseData; CloseWeights; DisposeCapture; DisposePort].
Proof. vm_compute. reflexivity. Qed.

Example edgerl_scenario_log :
  map is_send
      (calls (fst (Session.main EdgeRL
                     {| bootstrap := Boots; connect := Ret tt;
                        state_reads := [Ret eRUNNING; Ret eRUNNING; Ret eFINISHED];
                        fetch := fun _ => Ret uneven_batch;
                        send := fun _ => Ret tt;
                        dispose_capture := Ret tt;
                        dispose_port := Ret tt |} initial)))
  = [false; false; false; false; true; true; true; true;
     false; false; false; false].
Proof. vm_compute. reflexivity. Qed.

(** ** Lists, slices and division *)

Lemma firstn_plus (A : Type) (n m : nat) (l : list A) :
  firstn (n + m) l = firstn n l ++ firstn m (skipn n l).
Proof.
  revert l; induction n as [|n IH]; intros l; [reflexivity|].
  destruct l as [|x l]; simpl.
  - now rewrite firstn_nil.
  - now rewrite IH.
Qed.

Lemma concat_slices (b : bytes) (M n : nat) :
  concat (map (fun k => slice b (k * M) ((k + 1) * M)) (seq 0 n))
  = firstn (n * M) b.
Proof.
  induction n as [|n IH]; [reflexivity|].
  rewrite seq_S, map_app, concat_app, IH; simpl.
  rewrite app_nil_r. unfold slice.
  replace ((n + 1) * M - n * M) with M by lia.
  replace (M + n * M) with (n * M + M) by lia.
  now rewrite firstn_plus.
Qed.

Lemma full_slices (b : bytes) (M n : nat) :
  n * M <= length b ->
  Forall (fun c : bytes => length c = M)
         (map (fun k => slice b (k * M) ((k + 1) * M)) (seq 0 n)).
Proof.
  intros Hn. apply Forall_forall. intros c Hc.
  apply in_map_iff in Hc. destruct Hc as [k [<- Hk]].
  apply in_seq in Hk. unfold slice.
  rewrite length_firstn, length_skipn. nia.
Qed.

Lemma Forall_removelast (A : Type) (P : A -> Prop) (l : list A) :
  Forall P l -> Forall P (removelast l).
Proof.
  induction 1 as [|x l Hx Hl IH]; simpl; [constructor|].
  destruct l; [constructor|]. constructor; assumption.
Qed.

Lemma last_map_seq (A : Type) (f : nat -> A) (n : nat) (d : A) :
  last (map f (seq 0 (S n))) d = f n.
Proof. rewrite seq_S, map_app. simpl. apply last_last. Qed.

Lemma ceil_div_exact (n M : nat) :
  0 < M -> n mod M = 0 -> Transmitter.ceil_div n M = n / M.
Proof.
  intros HM Hr. unfold Transmitter.ceil_div.
  pose proof (Nat.div_mod_eq n M) as E. rewrite Hr in E.
  symmetry. apply Nat.div_unique with (r := M - 1); lia.
Qed.

Lemma ceil_div_inexact (n M : nat) :
  0 < M -> n mod M <> 0 -> Transmitter.ceil_div n M = n / M + 1.
Proof.
  intros HM Hr. unfold Transmitter.ceil_div.
  pose proof (Nat.div_mod_eq n M) as E.
  assert (B : n mod M < M) by (apply Nat.mod_upper_bound; lia).
  symmetry. apply Nat.div_unique with (r := n mod M - 1); lia.
Qed.

(** ** Running the chunked send on a socket that takes every write *)


Lemma after_nil (w : World) : after w [] (loop_i w) = w.
Proof. destruct w; unfold after; simpl. now rewrite app_nil_r. Qed.

Lemma after_after (w : World) cs1 cs2 i1 i2 :
  after (after w cs1 i1) cs2 i2 = after w (cs1 ++ cs2) i2.
Proof. unfold after; simpl. now rewrite app_assoc. Qed.


Lemma bind_run (A B : Type) (m : IO A) (k : A -> IO B) (w w' : World) (a : A) :
  m w = (w', Ret a) -> bind m k w = k a w'.
Proof. intros H. unfold bind. now rewrite H. Qed.

Lemma bind_raise (A B : Type) (m : IO A) (k : A -> IO B) (w w' : World) e :
  m w = (w', Raise e) -> bind m k w = (w', Raise e).
Proof. intros H. unfold bind. now rewrite H. Qed.

Lemma bind_pending (A B : Type) (m : IO A) (k : A -> IO B) (w w' : World) :
  m w = (w', Pending) -> bind m k w = (w', Pending).
Proof. intros H. unfold bind. now rewrite H. Qed.

Section Accepting.

Variable send : nat -> outcome unit.
Hypothesis Hsend : accepts send.

Lemma data_socket_send_ok (b : bytes) (w : World) :
  Transmitter.data_socket_send send b w = (after w [Send b] (loop_i w), Ret tt).
Proof.
  unfold Transmitter.data_socket_send, call. now rewrite Hsend.
Qed.

Lemma for_i_sends (f : nat -> bytes) (ks : list nat) (w : World) :
  for_i ks (fun i => Transmitter.data_socket_send send (f i)) w
  = (after w (map (fun k => Send (f k)) ks)
           (match ks with [] => loop_i w | _ => Some (last ks 0) end),
     Ret tt).
Proof.
  revert w; induction ks as [|k ks IH]; intros w.
  - simpl. unfold ret. now rewrite after_nil.
  - cbn [for_i]. unfold bind at 1. cbn [set_i].
    unfold bind at 1. rewrite data_socket_send_ok.
    rewrite IH. rewrite after_after. cbn [loop_i after].
    f_equal. unfold after; cbn. f_equal.
    destruct ks; reflexivity.
Qed.


Lemma send_bytes_writes (M : nat) (b : bytes) (w : World) :
  0 < M ->
  exists i',
    Transmitter.send_bytes send M b w
    = (after w (map Send (writes M b)) i', Ret tt).
Proof.
  intros HM. unfold Transmitter.send_bytes, writes.
  destruct (Nat.leb_spec (length b) M) as [Hle|Hgt].
  - exists (loop_i w). now rewrite data_socket_send_ok.
  - assert (Hdiv : floordiv (length b) M = Ret (length b / M)).
    { destruct M; [lia|reflexivity]. }
    remember (length b / M) as q eqn:Eq.
    assert (Hq : 1 <= q).
    { subst q. apply Nat.div_le_lower_bound; lia. }
    destruct q as [|q']; [lia|].
    rewrite bind_run with (w' := w) (a := S q')
      by (unfold lift; now rewrite Hdiv).
    erewrite bind_run by apply for_i_sends.
    assert (Hlast : last (seq 0 (S q')) 0 = q').
    { rewrite seq_S. apply last_last. }
    destruct (seq 0 (S q')) as [|k0 ks] eqn:Es; [discriminate|].
    rewrite Hlast.
    erewrite bind_run by reflexivity.
    replace (q' + 1) with (S q') by lia.
    destruct (S q' * M <? length b).
    + exists (Some q'). rewrite data_socket_send_ok, after_after.
      cbn [loop_i after]. rewrite map_app, map_map. reflexivity.
    + exists (Some q'). unfold ret. rewrite app_nil_r, map_map. reflexivity.
Qed.

End Accepting.

(** ** The list of writes *)

Lemma writes_concat (M : nat) (b : bytes) :
  0 < M -> concat (writes M b) = b.
Proof.
  intros HM. unfold writes.
  destruct (Nat.leb_spec (length b) M) as [Hle|Hgt].
  - simpl. apply app_nil_r.
  - rewrite concat_app, concat_slices. unfold slice_from.
    destruct (Nat.ltb_spec (length b / M * M) (length b)) as [Hlt|Hge].
    + simpl. rewrite app_nil_r. apply firstn_skipn.
    + simpl. rewrite app_nil_r. apply firstn_all2. exact Hge.
Qed.

Lemma writes_count (M : nat) (b : bytes) :
  0 < M -> b <> [] -> length (writes M b) = Transmitter.ceil_div (length b) M.
Proof.
  intros HM Hb. unfold writes.
  assert (Hlen : 0 < length b) by (destruct b; [congruence|simpl; lia]).
  pose proof (Nat.div_mod_eq (length b) M) as E.
  assert (B : length b mod M < M) by (apply Nat.mod_upper_bound; lia).
  destruct (Nat.leb_spec (length b) M) as [Hle|Hgt].
  - simpl. unfold Transmitter.ceil_div.
    apply Nat.div_unique with (r := length b - 1); lia.
  - rewrite length_app, length_map, length_seq.
    destruct (Nat.ltb_spec (length b / M * M) (length b)) as [Hlt|Hge].
    + rewrite ceil_div_inexact by lia. reflexivity.
    + rewrite ceil_div_exact by lia. simpl. lia.
Qed.

Lemma writes_full_but_last (M : nat) (b : bytes) :
  0 < M -> Forall (fun c : bytes => length c = M) (removelast (writes M b)).
Proof.
  intros HM. unfold writes.
  destruct (Nat.leb_spec (length b) M) as [Hle|Hgt]; [constructor|].
  assert (Hfull := @full_slices b M (length b / M)).
  pose proof (Nat.div_mod_eq (length b) M) as E.
  destruct (Nat.ltb_spec (length b / M * M) (length b)) as [Hlt|Hge].
  - rewrite removelast_last. apply Hfull. lia.
  - rewrite app_nil_r. apply Forall_removelast, Hfull. lia.
Qed.

Lemma writes_last (M : nat) (b : bytes) :
  0 < M -> b <> [] -> 1 <= length (last (writes M b) []) <= M.
Proof.
  intros HM Hb. unfold writes.
  assert (Hlen : 0 < length b) by (destruct b; [congruence|simpl; lia]).
  pose proof (Nat.div_mod_eq (length b) M) as E.
  assert (B : length b mod M < M) by (apply Nat.mod_upper_bound; lia).
  destruct (Nat.leb_spec (length b) M) as [Hle|Hgt]; [simpl; lia|].
  destruct (Nat.ltb_spec (length b / M * M) (length b)) as [Hlt|Hge].
  - rewrite last_last. unfold slice_from. rewrite length_skipn. lia.
  - rewrite app_nil_r.
    assert (Hq : 1 <= length b / M) by (apply Nat.div_le_lower_bound; lia).
    destruct (length b / M) as [|q'] eqn:Eq; [lia|].
    rewrite last_map_seq. unfold slice.
    rewrite length_firstn, length_skipn. nia.
Qed.

Lemma writes_multiple (M : nat) (b : bytes) :
  0 < M -> M < length b -> length b mod M = 0 ->
  writes M b
  = map (fun k => slice b (k * M) ((k + 1) * M)) (seq 0 (length b / M)).
Proof.
  intros HM Hgt Hr. unfold writes.
  pose proof (Nat.div_mod_eq (length b) M) as E.
  destruct (Nat.leb_spec (length b) M) as [Hle|_]; [lia|].
  destruct (Nat.ltb_spec (length b / M * M) (length b)) as [Hlt|Hge]; [lia|].
  apply app_nil_r.
Qed.

Lemma writes_2000_988 (b : bytes) :
  length b = 2000 -> map (@length byte) (writes 988 b) = [988; 988; 24].
Proof.
  intros H. unfold writes. rewrite H.
  change (2000 <=? 988) with false. cbv iota.
  change (2000 / 988) with 2.
  change (2 * 988 <? 2000) with true. cbv iota.
  cbn [seq map app]. unfold slice, slice_from.
  rewrite !length_firstn, !length_skipn, H. reflexivity.
Qed.

(** ** The chunked transmitter: claims C1, C10 *)

(** C1.  On a socket that takes every write, [send_bytes] with a buffer size
    [M > 0] and a non-empty payload returns after a sequence of sends whose
    chunks, concatenated in the order of the calls, are the payload; there
    are [ceil(len / M)] of them; every chunk but the last has length [M] and
    the last has length 1 to [M].  For 2000 bytes and [M = 988] the lengths
    are 988, 988, 24. *)
Theorem C1_chunks_partition_payload :
  forall (send : nat -> outcome unit) (M : nat) (payload : bytes) (w : World),
    accepts send -> 0 < M -> payload <> [] ->
    exists (chunks : list bytes) (w' : World),
      Transmitter.send_bytes send M payload w = (w', Ret tt) /\
      calls w' = calls w ++ map Send chunks /\
      concat chunks = payload /\
      length chunks = Transmitter.ceil_div (length payload) M /\
      Forall (fun c : bytes => length c = M) (removelast chunks) /\
      1 <= length (last chunks []) <= M /\
      (M = 988 -> length payload = 2000 ->
       map (@length byte) chunks = [988; 988; 24]).
Proof.
  intros send M payload w Hs HM Hp.
  destruct (send_bytes_writes Hs payload w HM) as [i' Hrun].
  exists (writes M payload), (after w (map Send (writes M payload)) i').
  split; [exact Hrun|]. split; [reflexivity|].
  split; [now apply writes_concat|].
  split; [now apply writes_count|].
  split; [now apply writes_full_but_last|].
  split; [now apply writes_last|].
  intros -> Hlen. now apply writes_2000_988.
Qed.

Lemma C1_witness :
  exists (chunks : list bytes) (w' : World),
    Transmitter.send_bytes (fun _ => Ret tt) 2 [x01; x02; x03] initial
    = (w', Ret tt) /\
    calls w' = calls initial ++ map Send chunks /\
    concat chunks = [x01; x02; x03] /\
    length chunks = Transmitter.ceil_div (length [x01; x02; x03]) 2 /\
    Forall (fun c : bytes => length c = 2) (removelast chunks) /\
    1 <= length (last chunks []) <= 2 /\
    (2 = 988 -> length [x01; x02; x03] = 2000 ->
     map (@length byte) chunks = [988; 988; 24]).
Proof.
  apply (@C1_chunks_partition_payload (fun _ => Ret tt) 2 [x01; x02; x03] initial).
  - intros n. reflexivity.
  - lia.
  - discriminate.
Defined.

(** C10.  A payload longer than [M] whose length is a multiple of [M] goes
    out in exactly [len / M] sends of [M] bytes each; the guard of the
    remainder is false, and no send is empty. *)
Theorem C10_exact_multiple_no_remainder :
  forall (send : nat -> outcome unit) (M : nat) (payload : bytes) (w : World),
    accepts send -> 0 < M -> M < length payload -> length payload mod M = 0 ->
    exists (chunks : list bytes) (w' : World),
      Transmitter.send_bytes send M payload w = (w', Ret tt) /\
      calls w' = calls w ++ map Send chunks /\
      length chunks = length payload / M /\
      Forall (fun c : bytes => length c = M) chunks /\
      ~ In [] chunks /\
      concat chunks = payload.
Proof.
  intros send M payload w Hs HM Hgt Hr.
  destruct (send_bytes_writes Hs payload w HM) as [i' Hrun].
  exists (writes M payload), (after w (map Send (writes M payload)) i').
  split; [exact Hrun|]. split; [reflexivity|].
  pose proof (Nat.div_mod_eq (length payload) M) as E.
  assert (Hfull : Forall (fun c : bytes => length c = M) (writes M payload)).
  { rewrite writes_multiple by assumption. apply full_slices. lia. }
  split.
  { rewrite writes_multiple by assumption. now rewrite length_map, length_seq. }
  split; [exact Hfull|].
  split; [|now apply writes_concat].
  intros Hin. rewrite Forall_forall in Hfull.
  apply Hfull in Hin. simpl in Hin. lia.
Qed.

Lemma C10_witness :
  exists (chunks : list bytes) (w' : World),
    Transmitter.send_bytes (fun _ => Ret tt) 2 [x01; x02; x03; x04] initial
    = (w', Ret tt) /\
    calls w' = calls initial ++ map Send chunks /\
    length chunks = length [x01; x02; x03; x04] / 2 /\
    Forall (fun c : bytes => length c = 2) chunks /\
    ~ In [] chunks /\
    concat chunks = [x01; x02; x03; x04].
Proof.
  apply (@C10_exact_multiple_no_remainder
           (fun _ => Ret tt) 2 [x01; x02; x03; x04] initial).
  - intros n. reflexivity.
  - lia.
  - simpl. lia.
  - reflexivity.
Defined.

(** ** The conversion to float32 stays in the format *)

Section Binary32.

Local Open Scope Z_scope.

Lemma digits2_pos_bound (p : positive) : Zpos p < 2 ^ Zpos (digits2_pos p).
Proof.
  induction p as [p IH|p IH|]; cbn [digits2_pos].
  - rewrite Pos2Z.inj_succ, Z.pow_succ_r by lia. lia.
  - rewrite Pos2Z.inj_succ, Z.pow_succ_r by lia. lia.
  - reflexivity.
Qed.

Lemma digits2_pos_low (p : positive) : 2 ^ (Zpos (digits2_pos p) - 1) <= Zpos p.
Proof.
  induction p as [p IH|p IH|]; cbn [digits2_pos].
  - rewrite Pos2Z.inj_succ. replace (Z.succ (Zpos (digits2_pos p)) - 1)
      with (Z.succ (Zpos (digits2_pos p) - 1)) by lia.
    rewrite Z.pow_succ_r by lia. lia.
  - rewrite Pos2Z.inj_succ. replace (Z.succ (Zpos (digits2_pos p)) - 1)
      with (Z.succ (Zpos (digits2_pos p) - 1)) by lia.
    rewrite Z.pow_succ_r by lia. lia.
  - cbn. lia.
Qed.

Lemma Zdigits2_bound (m : Z) : 0 <= m -> m < 2 ^ Zdigits2 m.
Proof.
  destruct m as [|p|p]; intros H; [reflexivity|apply digits2_pos_bound|lia].
Qed.

Lemma shr_1_m (mrs : shr_record) :
  0 <= shr_m mrs -> shr_m (shr_1 mrs) = shr_m mrs / 2.
Proof.
  destruct mrs as [m r s]. cbn [shr_m shr_1].
  destruct m as [|[p|p|]|p]; intros H; cbn [shr_m]; try lia.
  - reflexivity.
  - rewrite Pos2Z.inj_xI. apply Z.div_unique with 1; lia.
  - rewrite Pos2Z.inj_xO. apply Z.div_unique with 0; lia.
  - reflexivity.
Qed.

Lemma iter_shr_1_m (p : positive) :
  forall mrs, 0 <= shr_m mrs ->
    shr_m (SpecFloat.iter_pos shr_1 p mrs) = shr_m mrs / 2 ^ Zpos p.
Proof.
  induction p as [p IH|p IH|]; intros mrs H; cbn [SpecFloat.iter_pos].
  - assert (H1 : 0 <= shr_m (shr_1 mrs)).
    { rewrite shr_1_m by exact H. apply Z.div_pos; lia. }
    assert (H2 : 0 <= shr_m (SpecFloat.iter_pos shr_1 p (shr_1 mrs))).
    { rewrite IH by exact H1. apply Z.div_pos; [exact H1|]. apply Z.pow_pos_nonneg; lia. }
    rewrite IH by exact H2. rewrite IH by exact H1. rewrite shr_1_m by exact H.
    rewrite !Z.div_div by (try apply Z.pow_pos_nonneg; lia).
    f_equal. change (Zpos p~1) with (2 * Zpos p + 1).
    replace (2 * Zpos p + 1) with (1 + Zpos p + Zpos p) by lia.
    rewrite !Z.pow_add_r by lia. change (2 ^ 1) with 2. ring.
  - assert (H2 : 0 <= shr_m (SpecFloat.iter_pos shr_1 p mrs)).
    { rewrite IH by exact H. apply Z.div_pos; [exact H|]. apply Z.pow_pos_nonneg; lia. }
    rewrite IH by exact H2. rewrite IH by exact H.
    rewrite !Z.div_div by (try apply Z.pow_pos_nonneg; lia).
    f_equal. change (Zpos p~0) with (2 * Zpos p).
    replace (2 * Zpos p) with (Zpos p + Zpos p) by lia.
    rewrite !Z.pow_add_r by lia. ring.
  - rewrite shr_1_m by exact H. reflexivity.
Qed.

Lemma shr_m_of_loc (m : Z) (l : location) : shr_m (shr_record_of_loc m l) = m.
Proof. destruct l as [|[| |]]; reflexivity. Qed.

(** What [shr_fexp] leaves of a mantissa fits the precision, and its
    exponent is not below the least one. *)
Lemma shr_fexp_bounds (m e : Z) (l : location) :
  0 <= m ->
  0 <= shr_m (fst (shr_fexp 24 128 m e l)) < 2 ^ 24 /\
  -149 <= snd (shr_fexp 24 128 m e l).
Proof.
  intros Hm. unfold shr_fexp, shr.
  pose proof (@Zdigits2_bound m Hm) as Hd.
  assert (Hd0 : 0 <= Zdigits2 m) by (destruct m; cbn; lia).
  set (d := Zdigits2 m) in *.
  assert (Hf : fexp 24 128 (d + e) = Z.max (d + e - 24) (-149)) by reflexivity.
  destruct (fexp 24 128 (d + e) - e) as [|p|p] eqn:En; cbn [fst snd];
    rewrite ?shr_m_of_loc.
  - split; [|lia]. split; [exact Hm|].
    apply Z.lt_le_trans with (2 ^ d); [exact Hd|].
    apply Z.pow_le_mono_r; lia.
  - rewrite iter_shr_1_m by (rewrite shr_m_of_loc; exact Hm).
    rewrite shr_m_of_loc. split; [|lia].
    split; [apply Z.div_pos; [exact Hm|apply Z.pow_pos_nonneg; lia]|].
    apply Z.div_lt_upper_bound; [apply Z.pow_pos_nonneg; lia|].
    rewrite <- Z.pow_add_r by lia.
    apply Z.lt_le_trans with (2 ^ d); [exact Hd|].
    apply Z.pow_le_mono_r; lia.
  - split; [|lia]. split; [exact Hm|].
    apply Z.lt_le_trans with (2 ^ d); [exact Hd|].
    apply Z.pow_le_mono_r; lia.
Qed.

Lemma round_nearest_even_nonneg (m : Z) (l : location) :
  0 <= m -> 0 <= round_nearest_even m l.
Proof.
  intros H. unfold round_nearest_even.
  destruct l as [|[| |]]; try destruct (Z.even m); lia.
Qed.

Lemma bits_of_finite_range (s : bool) (m : positive) (e : Z) :
  Zpos m < 2 ^ 24 -> -149 <= e <= 104 ->
  is_f32 (bits_of_SF32 (S754_finite s m e)).
Proof.
  unfold is_f32, bits_of_SF32.
  change (2 ^ 24) with 16777216. change (2 ^ 23) with 8388608.
  change (2 ^ 31) with 2147483648. change (2 ^ 32) with 4294967296.
  intros Hm He. destruct (Z.ltb_spec (Zpos m) 8388608); destruct s; nia.
Qed.

Lemma binary_round_aux_f32 (s : bool) (m e : Z) (l : location) :
  0 <= m -> is_f32 (bits_of_SF32 (binary_round_aux 24 128 s m e l)).
Proof.
  intros Hm. unfold binary_round_aux.
  pose proof (@shr_fexp_bounds m e l Hm) as [H1 _].
  destruct (shr_fexp 24 128 m e l) as [mrs' e'] eqn:E1. cbn [fst] in H1.
  assert (Hr : 0 <= round_nearest_even (shr_m mrs') (loc_of_shr_record mrs'))
    by (apply round_nearest_even_nonneg; lia).
  pose proof (@shr_fexp_bounds _ e' loc_Exact Hr) as [H2 H3].
  destruct (shr_fexp 24 128 _ e' loc_Exact) as [mrs'' e''] eqn:E2.
  cbn [fst snd] in H2, H3.
  destruct (shr_m mrs'') as [|p|p] eqn:Em.
  - destruct s; vm_compute; split; congruence.
  - destruct (Z.leb_spec e'' (128 - 24)).
    + apply bits_of_finite_range; lia.
    + destruct s; vm_compute; split; congruence.
  - vm_compute; split; congruence.
Qed.

Lemma float32_is_f32 (x : float) : is_f32 (float32 x).
Proof.
  unfold float32, SF64_to_SF32.
  destruct (Prim2SF x) as [s|s| |s m e].
  - destruct s; vm_compute; split; congruence.
  - destruct s; vm_compute; split; congruence.
  - vm_compute; split; congruence.
  - unfold binary_round.
    destruct (shl_align m e _) as [mz ez]. apply binary_round_aux_f32. lia.
Qed.

Lemma Zdigits2_low (m : Z) : 0 < m -> 2 ^ (Zdigits2 m - 1) <= m.
Proof.
  destruct m as [|p|p]; intros H; [lia|apply digits2_pos_low|lia].
Qed.

(** In the normal range [shr_fexp] keeps a positive mantissa positive and
    leaves the greater of the exponent and the canonical one. *)
Lemma shr_fexp_normal (m e : Z) (l : location) :
  0 < m -> -149 <= Zdigits2 m + e - 24 ->
  0 < shr_m (fst (shr_fexp 24 128 m e l)) /\
  snd (shr_fexp 24 128 m e l) = Z.max e (Zdigits2 m + e - 24).
Proof.
  intros Hm Hn. unfold shr_fexp, shr.
  pose proof (@Zdigits2_low m Hm) as Hd.
  set (d := Zdigits2 m) in *.
  assert (Hf : fexp 24 128 (d + e) = d + e - 24).
  { unfold fexp, emin. lia. }
  rewrite Hf.
  destruct (d + e - 24 - e) as [|p|p] eqn:En; cbn [fst snd];
    rewrite ?shr_m_of_loc; [split; lia| |split; lia].
  rewrite iter_shr_1_m by (rewrite shr_m_of_loc; lia).
  rewrite shr_m_of_loc. split; [|lia].
  apply Z.div_str_pos. split; [apply Z.pow_pos_nonneg; lia|].
  apply Z.le_trans with (2 ^ (d - 1)); [|exact Hd].
  apply Z.pow_le_mono_r; lia.
Qed.

Lemma round_nearest_even_pos (m : Z) (l : location) :
  0 < m -> 0 < round_nearest_even m l.
Proof.
  intros H. unfold round_nearest_even.
  destruct l as [|[| |]]; try destruct (Z.even m); lia.
Qed.

Lemma Zdigits2_pos (m : Z) : 0 < m -> 0 < Zdigits2 m.
Proof. destruct m; cbn; lia. Qed.

Lemma binary_round_aux_overflow (s : bool) (m e : Z) (l : location) :
  0 < m -> 104 < Z.max e (Zdigits2 m + e - 24) ->
  binary_round_aux 24 128 s m e l = S754_infinity s.
Proof.
  intros Hm He. unfold binary_round_aux.
  pose proof (Zdigits2_pos Hm) as Hd.
  destruct (@shr_fexp_normal m e l Hm ltac:(lia)) as [H1 E1].
  destruct (shr_fexp 24 128 m e l) as [mrs' e'] eqn:Eq1. cbn [fst snd] in H1, E1.
  pose proof (@round_nearest_even_pos (shr_m mrs') (loc_of_shr_record mrs') H1)
    as Hr.
  pose proof (Zdigits2_pos Hr) as Hd'.
  destruct (@shr_fexp_normal _ e' loc_Exact Hr ltac:(lia)) as [H2 E2].
  destruct (shr_fexp 24 128 _ e' loc_Exact) as [mrs'' e''] eqn:Eq2.
  cbn [fst snd] in H2, E2.
  destruct (shr_m mrs'') as [|p|p]; [lia| |lia].
  destruct (Z.leb_spec e'' (128 - 24)); [lia|reflexivity].
Qed.

Lemma binary_round_overflow (s : bool) (m : positive) (e : Z) :
  128 < Zpos (digits2_pos m) + e ->
  binary_round 24 128 s m e = S754_infinity s.
Proof.
  intros H. unfold binary_round.
  assert (Hf : fexp 24 128 (Zpos (digits2_pos m) + e)
               = Zpos (digits2_pos m) + e - 24).
  { unfold fexp, emin. lia. }
  rewrite Hf. unfold shl_align.
  destruct (Zpos (digits2_pos m) + e - 24 - e) as [|p|p] eqn:En.
  - apply binary_round_aux_overflow; [lia|]. cbn [Zdigits2]. lia.
  - apply binary_round_aux_overflow; [lia|]. cbn [Zdigits2]. lia.
  - apply binary_round_aux_overflow; [lia|]. lia.
Qed.

Lemma float32_overflow (x : float) (s : bool) (m : positive) (e : Z) :
  Prim2SF x = S754_finite s m e ->
  128 < Zpos (digits2_pos m) + e ->
  float32 x = (if s then 2 ^ 31 else 0) + 255 * 2 ^ 23.
Proof.
  intros Hx H. unfold float32. rewrite Hx. cbn [SF64_to_SF32].
  now rewrite binary_round_overflow.
Qed.

End Binary32.

(** ** Bytes of a float32 value and back *)

Lemma Z_of_byte_of_Z (z : Z) :
  Z_of_byte (byte_of_Z z) = (z mod 256)%Z.
Proof.
  unfold Z_of_byte, byte_of_Z.
  assert (Hr : (0 <= z mod 256 < 256)%Z) by (apply Z.mod_pos_bound; lia).
  destruct (Byte.of_N (Z.to_N (z mod 256))) as [b|] eqn:E.
  - apply Byte.to_of_N in E. rewrite E. apply Z2N.id. lia.
  - apply Byte.of_N_None_iff in E. lia.
Qed.

Lemma length_le_bytes (w : f32) : length (le_bytes w) = 4.
Proof. reflexivity. Qed.

Lemma f32_of_le_bytes (w : f32) :
  is_f32 w ->
  Consumer.f32_of_le (byte_of_Z w) (byte_of_Z (w / 2 ^ 8))
                     (byte_of_Z (w / 2 ^ 16)) (byte_of_Z (w / 2 ^ 24)) = w.
Proof.
  unfold is_f32, Consumer.f32_of_le. intros Hw.
  rewrite !Z_of_byte_of_Z.
  change (2 ^ 8)%Z with 256%Z. change (2 ^ 16)%Z with (256 * 256)%Z.
  change (2 ^ 24)%Z with (256 * 256 * 256)%Z.
  change (2 ^ 32)%Z with (256 * 256 * 256 * 256)%Z in Hw.
  rewrite <- !Z.div_div by lia.
  set (a := (w / 256)%Z). set (b := (a / 256)%Z). set (c := (b / 256)%Z).
  pose proof (Z.div_mod w 256 ltac:(lia)) as E0.
  pose proof (Z.div_mod a 256 ltac:(lia)) as E1.
  pose proof (Z.div_mod b 256 ltac:(lia)) as E2.
  fold a in E0. fold b in E1. fold c in E2.
  assert (Hc : (0 <= c < 256)%Z).
  { unfold c, b, a. split.
    - repeat apply Z.div_pos; lia.
    - repeat (apply Z.div_lt_upper_bound; [lia|]). lia. }
  rewrite (Z.mod_small c 256) by exact Hc. lia.
Qed.

Lemma frombuffer_tobytes (row : list f32) :
  Forall is_f32 row ->
  forall rest, Consumer.frombuffer (numpy.tobytes row ++ rest)
               = row ++ Consumer.frombuffer rest.
Proof.
  induction 1 as [|w row Hw Hrow IH]; intros rest; [reflexivity|].
  unfold numpy.tobytes in *. cbn [flat_map le_bytes app Consumer.frombuffer].
  rewrite f32_of_le_bytes by exact Hw. now rewrite IH.
Qed.

Lemma frombuffer_frame (frame : list (list f32)) :
  Forall (Forall is_f32) frame ->
  Consumer.frombuffer (flat_map numpy.tobytes frame) = concat frame.
Proof.
  induction 1 as [|row frame Hrow Hframe IH]; [reflexivity|].
  cbn [flat_map concat]. rewrite frombuffer_tobytes by exact Hrow.
  now rewrite IH.
Qed.

Lemma rows_concat (C : nat) (frame : list (list f32)) :
  Forall (fun row => length row = C) frame ->
  Consumer.rows (length frame) C (concat frame) = frame.
Proof.
  induction 1 as [|row frame Hrow Hframe IH]; [reflexivity|].
  cbn [length Consumer.rows concat]. subst C.
  rewrite firstn_app, Nat.sub_diag, firstn_all, firstn_O, app_nil_r.
  rewrite skipn_app, Nat.sub_diag, skipn_all, skipn_O. cbn [app].
  now rewrite IH.
Qed.

Lemma length_concat_rows (A : Type) (C : nat) (frame : list (list A)) :
  Forall (fun row => length row = C) frame ->
  length (concat frame) = length frame * C.
Proof.
  induction 1 as [|row frame Hrow Hframe IH]; [reflexivity|].
  cbn [concat length]. rewrite length_app, IH, Hrow. lia.
Qed.

Lemma decode_encode (C : nat) (frame : list (list f32)) :
  C <> 0 ->
  Forall (fun row => length row = C) frame ->
  Forall (Forall is_f32) frame ->
  Consumer.decode C (flat_map numpy.tobytes frame) = frame.
Proof.
  intros HC Hshape Hvalues. unfold Consumer.decode.
  rewrite frombuffer_frame by exact Hvalues.
  rewrite (length_concat_rows Hshape), Nat.div_mul by exact HC.
  now apply rows_concat.
Qed.

(** ** One pass of the loop body on a socket that takes every write *)

Section Passes.

Variable send : nat -> outcome unit.
Hypothesis Hsend : accepts send.
Variable M : nat.
Hypothesis HM : 0 < M.

Lemma for_each_send_bytes (A : Type) (body : A -> IO unit)
      (xs : list A) (ps : list bytes) :
  Forall2 (fun x p => forall w, body x w = Transmitter.send_bytes send M p w)
          xs ps ->
  forall w, exists i',
    for_each xs body w
    = (after w (map Send (flat_map (writes M) ps)) i', Ret tt).
Proof.
  induction 1 as [|x p xs ps Hx Hxs IH]; intros w.
  - exists (loop_i w). simpl. unfold ret. now rewrite after_nil.
  - destruct (send_bytes_writes Hsend p w HM) as [i1 H1].
    destruct (IH (after w (map Send (writes M p)) i1)) as [i2 H2].
    exists i2. cbn [for_each flat_map].
    erewrite bind_run by (rewrite Hx; exact H1).
    rewrite H2, after_after, map_app. reflexivity.
Qed.

Lemma extract_value_holds (r : CaptureResult) (variable : string)
      (v : list float) (w : World) :
  ExtractSignalValue r route_testbench_data.slaveTask variable
  = Ret {| FcnValues := v |} ->
  route_testbench_data.extract_value r variable w = (w, Ret v).
Proof.
  intros H. unfold route_testbench_data.extract_value, bind, lift.
  rewrite H. reflexivity.
Qed.

Lemma list_comp_holds (r : CaptureResult) (variables : list string)
      (values : list (list float)) (w : World) :
  holds r route_testbench_data.slaveTask variables values ->
  list_comp (route_testbench_data.extract_value r) variables w
  = (w, Ret values).
Proof.
  induction 1 as [|variable v variables values Hv Hrest IH]; [reflexivity|].
  cbn [list_comp].
  erewrite bind_run by (apply extract_value_holds; exact Hv).
  erewrite bind_run by exact IH. reflexivity.
Qed.

Lemma fetched_signals_arr_holds (r : CaptureResult) (variables : list string)
      (values : list (list float)) (w : World) :
  holds r route_testbench_data.slaveTask variables values ->
  numpy.homogeneous values = true ->
  route_testbench_data.fetched_signals_arr variables r w
  = (w, Ret (numpy.T (map (map float32) values))).
Proof.
  intros Hh Hhom. unfold route_testbench_data.fetched_signals_arr.
  erewrite bind_run by (apply list_comp_holds; exact Hh).
  unfold numpy.array. rewrite Hhom. reflexivity.
Qed.

Lemma fetched_signals_arr_ragged (r : CaptureResult) (variables : list string)
      (values : list (list float)) (w : World) :
  holds r route_testbench_data.slaveTask variables values ->
  numpy.homogeneous values = false ->
  route_testbench_data.fetched_signals_arr variables r w
  = (w, Raise (numpy.ValueError_inhomogeneous (length values))).
Proof.
  intros Hh Hhom. unfold route_testbench_data.fetched_signals_arr.
  erewrite bind_run by (apply list_comp_holds; exact Hh).
  unfold numpy.array. rewrite Hhom. reflexivity.
Qed.

(** The testbench pass: the rows of the array, each through [send_bytes]. *)
Lemma testbench_process (r : CaptureResult) (variables : list string)
      (values : list (list float)) (w : World) :
  holds r route_testbench_data.slaveTask variables values ->
  numpy.homogeneous values = true ->
  exists i',
    route_testbench_data.process send variables M r w
    = (after w (map Send (flat_map (writes M)
                            (map numpy.tobytes
                                 (numpy.T (map (map float32) values))))) i',
       Ret tt).
Proof.
  intros Hh Hhom. unfold route_testbench_data.process.
  erewrite bind_run by (apply fetched_signals_arr_holds; eassumption).
  apply for_each_send_bytes.
  induction (numpy.T (map (map float32) values)) as [|row rows IH];
    constructor; auto.
Qed.

Lemma signal_values_holds (r : CaptureResult) (variable : string)
      (v : list float) (w : World) :
  ExtractSignalValue r EdgeRL_DataAcquisition.slaveTask variable
  = Ret {| FcnValues := v |} ->
  EdgeRL_DataAcquisition.signal_values r variable w = (w, Ret v).
Proof.
  intros H. unfold EdgeRL_DataAcquisition.signal_values, bind, lift.
  rewrite H. reflexivity.
Qed.

(** The EdgeRL pass: the tuples of the zip, packed, each through
    [send_bytes]. *)
Lemma edgerl_process (r : CaptureResult) (a b c d : list float)
      (ps : list bytes) (w : World) :
  holds r EdgeRL_DataAcquisition.slaveTask
        [EdgeRL_DataAcquisition.stateCurrentId;
         EdgeRL_DataAcquisition.stateCurrentIq;
         EdgeRL_DataAcquisition.trajectoryIdx;
         EdgeRL_DataAcquisition.trajectoryReset] [a; b; c; d] ->
  Forall2 (fun date p => EdgeRL_DataAcquisition.join_pack date = Ret p)
          (zip4 a b c d) ps ->
  exists i',
    EdgeRL_DataAcquisition.process send M r w
    = (after w (map Send (flat_map (writes M) ps)) i', Ret tt).
Proof.
  intros Hh Hp. unfold EdgeRL_DataAcquisition.process.
  inversion Hh as [|? ? ? ? Ha Hh1]; subst.
  inversion Hh1 as [|? ? ? ? Hb Hh2]; subst.
  inversion Hh2 as [|? ? ? ? Hc Hh3]; subst.
  inversion Hh3 as [|? ? ? ? Hd _]; subst.
  erewrite bind_run by (apply signal_values_holds; exact Ha).
  erewrite bind_run by (apply signal_values_holds; exact Hb).
  erewrite bind_run by (apply signal_values_holds; exact Hc).
  erewrite bind_run by (apply signal_values_holds; exact Hd).
  apply for_each_send_bytes.
  eapply Forall2_impl; [|exact Hp].
  intros date p Hpack w0. cbv beta. unfold bind at 1, lift.
  rewrite Hpack. reflexivity.
Qed.

End Passes.

(** ** The array of one fetch and its rows *)

Lemma homogeneous_Forall (N : nat) (values : list (list float)) :
  Forall (fun v => length v = N) values -> numpy.homogeneous values = true.
Proof.
  intros H. destruct values as [|v0 rest]; [reflexivity|].
  inversion H as [|? ? H0 Hrest]; subst. cbn [numpy.homogeneous].
  apply forallb_forall. intros v Hv. apply Nat.eqb_eq.
  rewrite Forall_forall in Hrest. now apply Hrest.
Qed.

Lemma homogeneous_ragged (values : list (list float)) :
  (exists u v, In u values /\ In v values /\ length u <> length v) ->
  numpy.homogeneous values = false.
Proof.
  intros [u [v [Hu [Hv Hne]]]].
  destruct (numpy.homogeneous values) eqn:E; [exfalso|reflexivity].
  destruct values as [|v0 rest]; [contradiction|].
  cbn [numpy.homogeneous] in E. rewrite forallb_forall in E.
  assert (Hall : forall x, In x (v0 :: rest) -> length x = length v0).
  { intros x [<-|Hx]; [reflexivity|]. apply Nat.eqb_eq. now apply E. }
  apply Hne. rewrite (Hall u Hu), (Hall v Hv). reflexivity.
Qed.

Lemma T_entries (N : nat) (values : list (list float)) :
  values <> [] ->
  Forall (fun v => length v = N) values ->
  numpy.T (map (map float32) values)
  = map (fun k => map (fun v => float32 (nth k v 0%float)) values) (seq 0 N).
Proof.
  intros Hne Hall. unfold numpy.T.
  destruct values as [|v0 rest]; [congruence|].
  assert (H0 : length v0 = N) by (inversion Hall; assumption).
  cbn [map hd]. rewrite length_map, H0.
  apply map_ext_in. intros k Hk. apply in_seq in Hk.
  change (map (fun row => nth k row 0%Z) (map (map float32) (v0 :: rest))
          = map (fun v => float32 (nth k v 0%float)) (v0 :: rest)).
  rewrite map_map. apply map_ext_in. intros v Hv.
  rewrite Forall_forall in Hall. specialize (Hall v Hv).
  rewrite (nth_indep _ 0%Z (float32 0%float)) by (rewrite length_map; lia).
  apply map_nth.
Qed.

Lemma length_tobytes (row : list f32) :
  length (numpy.tobytes row) = 4 * length row.
Proof.
  unfold numpy.tobytes. induction row as [|w row IH]; [reflexivity|].
  cbn [flat_map]. rewrite length_app, IH, length_le_bytes. simpl. lia.
Qed.

Lemma length_encoded_rows (C : nat) (frame : list (list f32)) :
  Forall (fun row => length row = C) frame ->
  length (flat_map numpy.tobytes frame) = length frame * C * 4.
Proof.
  induction 1 as [|row frame Hrow Hframe IH]; [reflexivity|].
  cbn [flat_map length]. rewrite length_app, IH, length_tobytes, Hrow. lia.
Qed.

Lemma concat_writes (M : nat) (ps : list bytes) :
  0 < M -> concat (flat_map (writes M) ps) = concat ps.
Proof.
  intros HM. induction ps as [|p ps IH]; [reflexivity|].
  cbn [flat_map concat]. rewrite concat_app, writes_concat, IH by exact HM.
  reflexivity.
Qed.

Lemma writes_fits (M : nat) (ps : list bytes) :
  Forall (fun p : bytes => length p <= M) ps ->
  flat_map (writes M) ps = ps.
Proof.
  induction 1 as [|p ps Hp Hps IH]; [reflexivity|].
  cbn [flat_map]. rewrite IH. unfold writes.
  apply Nat.leb_le in Hp. now rewrite Hp.
Qed.

Lemma concat_map_tobytes (frame : list (list f32)) :
  concat (map numpy.tobytes frame) = flat_map numpy.tobytes frame.
Proof. symmetry. apply flat_map_concat_map. Qed.

(** ** The frame and its bytes: claim C2 *)

(** C2.  For a capture result that holds, under the C requested variables,
    vectors of N values each, the array of the testbench pass has one row
    per sample, in sample order, each row the float32 values of the C
    variables in the order of the list; on a socket that takes every write
    the pass returns, and the bytes handed to the socket, in order, are the
    rows one after the other, each value as its 4 little-endian bytes:
    N * C * 4 bytes.  For the variables I_d, I_q with vectors [1.0, 2.0] and
    [3.0, 4.0] the array is [[1.0, 3.0], [2.0, 4.0]] and 16 bytes go out. *)
Theorem C2_frame_encoding :
  forall (send : nat -> outcome unit) (M : nat) (variables : list string)
         (r : CaptureResult) (values : list (list float)) (N : nat) (w : World),
    accepts send -> 0 < M ->
    holds r route_testbench_data.slaveTask variables values ->
    Forall (fun v => length v = N) values ->
    exists (frame : list (list f32)) (chunks : list bytes) (w' : World),
      route_testbench_data.fetched_signals_arr variables r w = (w, Ret frame) /\
      frame = match values with
              | [] => []
              | _ => map (fun k => map (fun v => float32 (nth k v 0%float)) values)
                         (seq 0 N)
              end /\
      Forall (fun row => length row = length variables) frame /\
      route_testbench_data.process send variables M r w = (w', Ret tt) /\
      calls w' = calls w ++ map Send chunks /\
      concat chunks = flat_map (fun row => flat_map le_bytes row) frame /\
      length (concat chunks) = N * length variables * 4 /\
      (values = [[1%float; 2%float]; [3%float; 4%float]] ->
       frame = [[float32 1%float; float32 3%float];
                [float32 2%float; float32 4%float]] /\
       length (concat chunks) = 16).
Proof.
  intros send M variables r values N w Hs HM Hh Hall.
  pose proof (homogeneous_Forall Hall) as Hhom.
  pose proof (Forall2_length Hh) as Hlen.
  destruct (testbench_process Hs HM w Hh Hhom) as [i' Hrun].
  set (frame := numpy.T (map (map float32) values)) in *.
  assert (Hframe : frame = match values with
                           | [] => []
                           | _ => map (fun k => map (fun v => float32 (nth k v 0%float)) values)
                                      (seq 0 N)
                           end).
  { destruct values as [|v0 rest] eqn:Ev; [reflexivity|].
    unfold frame. apply T_entries; [discriminate|exact Hall]. }
  assert (Hshape : Forall (fun row => length row = length variables) frame).
  { rewrite Hframe. destruct values as [|v0 rest]; [constructor|].
    apply Forall_forall. intros row Hrow. apply in_map_iff in Hrow.
    destruct Hrow as [k [<- _]]. now rewrite length_map. }
  assert (Hcount : length frame * length variables = N * length variables).
  { rewrite Hframe. destruct values as [|v0 rest].
    - simpl in Hlen. rewrite Hlen. simpl. lia.
    - now rewrite length_map, length_seq. }
  assert (Hbytes : length (concat (flat_map (writes M) (map numpy.tobytes frame)))
                   = N * length variables * 4).
  { rewrite concat_writes, concat_map_tobytes by exact HM.
    rewrite (length_encoded_rows Hshape). lia. }
  exists frame, (flat_map (writes M) (map numpy.tobytes frame)),
         (after w (map Send (flat_map (writes M) (map numpy.tobytes frame))) i').
  split; [now apply fetched_signals_arr_holds|].
  split; [exact Hframe|].
  split; [exact Hshape|].
  split; [exact Hrun|].
  split; [reflexivity|].
  split; [rewrite concat_writes by exact HM; apply concat_map_tobytes|].
  split; [exact Hbytes|].
  intros Ev. split.
  - rewrite Hframe. subst values.
    inversion Hall as [|? ? HN _]; subst. reflexivity.
  - rewrite Hbytes. subst values.
    inversion Hall as [|? ? HN _]; subst.
    inversion Hh as [|? ? ? ? _ Hh1]; subst.
    inversion Hh1 as [|? ? ? ? _ Hh2]; subst.
    inversion Hh2; subst. reflexivity.
Qed.

Lemma C2_witness :
  exists (frame : list (list f32)) (chunks : list bytes) (w' : World),
    route_testbench_data.process (fun _ => Ret tt) ["I_d"; "I_q"]%string 988
      (capture_result route_testbench_data.slaveTask
         [("I_d", [1%float; 2%float]); ("I_q", [3%float; 4%float])]%string)
      initial = (w', Ret tt) /\
    calls w' = map Send chunks /\
    frame = [[float32 1%float; float32 3%float];
             [float32 2%float; float32 4%float]] /\
    length (concat chunks) = 16.
Proof.
  destruct (@C2_frame_encoding
              (fun _ => Ret tt) 988 ["I_d"; "I_q"]%string
              (capture_result route_testbench_data.slaveTask
                 [("I_d", [1%float; 2%float]); ("I_q", [3%float; 4%float])]%string)
              [[1%float; 2%float]; [3%float; 4%float]] 2 initial)
    as [frame [chunks [w' [_ [_ [_ [Hrun [Hcalls [_ [_ Hscenario]]]]]]]]]].
  - intros n. reflexivity.
  - lia.
  - repeat constructor.
  - repeat constructor.
  - exists frame, chunks, w'.
    destruct (Hscenario eq_refl) as [Hframe Hlen].
    repeat split; assumption.
Defined.

(** ** One write per record: claim C9 *)

Lemma Ret_inj (A : Type) (a b : A) : Ret a = Ret b -> a = b.
Proof. intros H. now injection H. Qed.

Lemma pack_f_float32 (val : float) (p : bytes) :
  struct.pack_f val = Ret p -> p = le_bytes (float32 val).
Proof.
  unfold struct.pack_f, float32. intros H. apply Ret_inj in H.
  symmetry. exact H.
Qed.

Lemma pack_f_length (val : float) (p : bytes) :
  struct.pack_f val = Ret p -> length p = 4.
Proof.
  intros H. rewrite (@pack_f_float32 val p H). apply length_le_bytes.
Qed.

Lemma join_pack_length (date : list float) (p : bytes) :
  EdgeRL_DataAcquisition.join_pack date = Ret p -> length p = 4 * length date.
Proof.
  revert p; induction date as [|val rest IH]; intros p H.
  - inversion H. reflexivity.
  - cbn [EdgeRL_DataAcquisition.join_pack] in H.
    destruct (struct.pack_f val) as [q| |] eqn:Eq; try discriminate.
    destruct (EdgeRL_DataAcquisition.join_pack rest) as [ps| |];
      try discriminate.
    inversion H; subst.
    rewrite length_app, (@pack_f_length val q Eq), (IH ps eq_refl).
    simpl. lia.
Qed.

Lemma join_pack_row (date : list float) :
  EdgeRL_DataAcquisition.join_pack date
  = Ret (numpy.tobytes (map float32 date)).
Proof.
  induction date as [|val rest IH]; [reflexivity|].
  cbn [EdgeRL_DataAcquisition.join_pack]. rewrite IH. reflexivity.
Qed.

Lemma join_pack_rows (tuples : list (list float)) :
  Forall2 (fun date p => EdgeRL_DataAcquisition.join_pack date = Ret p)
          tuples (map (fun date => numpy.tobytes (map float32 date)) tuples).
Proof.
  induction tuples as [|date tuples IH]; constructor;
    [apply join_pack_row|exact IH].
Qed.

Lemma zip4_tuples (A : Type) (a b c d : list A) :
  Forall (fun date => length date = 4) (zip4 a b c d).
Proof.
  revert b c d; induction a as [|x a IH]; intros b c d; [constructor|].
  destruct b, c, d; try constructor; [reflexivity|apply IH].
Qed.

Lemma zip4_length (A : Type) (a b c d : list A) :
  length (zip4 a b c d)
  = Nat.min (Nat.min (length a) (length b)) (Nat.min (length c) (length d)).
Proof.
  revert b c d; induction a as [|x a IH]; intros b c d; [reflexivity|].
  destruct b, c, d; cbn [zip4 length]; try lia.
  rewrite IH. lia.
Qed.

Lemma packed_tuples (a b c d : list float) (ps : list bytes) :
  Forall2 (fun date p => EdgeRL_DataAcquisition.join_pack date = Ret p)
          (zip4 a b c d) ps ->
  Forall (fun p : bytes => length p = 16) ps.
Proof.
  intros H. pose proof (zip4_tuples a b c d) as Ht.
  induction H as [|date p dates ps Hp Hrest IH]; [constructor|].
  inversion Ht as [|? ? Hd Hds]; subst. constructor; [|now apply IH].
  rewrite (join_pack_length _ Hp), Hd. reflexivity.
Qed.

Lemma testbench_one_send_per_row (send : nat -> outcome unit) (M : nat)
      (r : CaptureResult) (variables : list string)
      (values : list (list float)) (N : nat) (w : World) :
  accepts send -> 0 < M -> 4 * length variables <= M ->
  holds r route_testbench_data.slaveTask variables values ->
  Forall (fun v => length v = N) values ->
  Forall (fun row => length (numpy.tobytes row) = 4 * length variables)
         (numpy.T (map (map float32) values)) /\
  exists i',
    route_testbench_data.process send variables M r w
    = (after w (map Send (map numpy.tobytes
                              (numpy.T (map (map float32) values)))) i',
       Ret tt).
Proof.
  intros Hs HM Hfit Hh Hall.
  pose proof (homogeneous_Forall Hall) as Hhom.
  destruct (testbench_process Hs HM w Hh Hhom) as [i' Hrun].
  assert (Hshape : Forall (fun row => length (numpy.tobytes row)
                                      = 4 * length variables)
                          (numpy.T (map (map float32) values))).
  { unfold numpy.T. apply Forall_forall. intros row Hrow.
    apply in_map_iff in Hrow. destruct Hrow as [k [<- _]].
    rewrite length_tobytes, !length_map.
    now rewrite (Forall2_length Hh). }
  split; [exact Hshape|]. exists i'.
  rewrite writes_fits in Hrun; [exact Hrun|].
  apply Forall_forall. intros p Hp. apply in_map_iff in Hp.
  destruct Hp as [row [<- Hrow]].
  rewrite Forall_forall in Hshape. rewrite (Hshape row Hrow). exact Hfit.
Qed.

Lemma edgerl_one_send_per_tuple (send : nat -> outcome unit) (M : nat)
      (r : CaptureResult) (a b c d : list float) (ps : list bytes)
      (w : World) :
  accepts send -> 16 <= M ->
  holds r EdgeRL_DataAcquisition.slaveTask
        [EdgeRL_DataAcquisition.stateCurrentId;
         EdgeRL_DataAcquisition.stateCurrentIq;
         EdgeRL_DataAcquisition.trajectoryIdx;
         EdgeRL_DataAcquisition.trajectoryReset] [a; b; c; d] ->
  Forall2 (fun date p => EdgeRL_DataAcquisition.join_pack date = Ret p)
          (zip4 a b c d) ps ->
  Forall (fun p : bytes => length p = 16) ps /\
  exists i',
    EdgeRL_DataAcquisition.process send M r w
    = (after w (map Send ps) i', Ret tt).
Proof.
  intros Hs Hfit Hh Hp.
  assert (HM : 0 < M) by lia.
  destruct (edgerl_process Hs HM w Hh Hp) as [i' Hrun].
  pose proof (packed_tuples _ _ _ _ Hp) as Hlen.
  split; [exact Hlen|]. exists i'.
  rewrite writes_fits in Hrun; [exact Hrun|].
  eapply Forall_impl; [|exact Hlen]. intros p Hp16. cbv beta in Hp16. lia.
Qed.

(** The EdgeRL pass on any four vectors: one send per tuple of the zip. *)
Lemma edgerl_pass_runs (send : nat -> outcome unit) (M : nat)
      (r : CaptureResult) (a b c d : list float) (w : World) :
  accepts send -> 16 <= M ->
  holds r EdgeRL_DataAcquisition.slaveTask
        [EdgeRL_DataAcquisition.stateCurrentId;
         EdgeRL_DataAcquisition.stateCurrentIq;
         EdgeRL_DataAcquisition.trajectoryIdx;
         EdgeRL_DataAcquisition.trajectoryReset] [a; b; c; d] ->
  exists i',
    EdgeRL_DataAcquisition.process send M r w
    = (after w (map Send
                    (map (fun date => numpy.tobytes (map float32 date))
                         (zip4 a b c d))) i', Ret tt).
Proof.
  intros Hs Hfit Hh.
  destruct (@edgerl_one_send_per_tuple send M r a b c d
              (map (fun date => numpy.tobytes (map float32 date))
                   (zip4 a b c d)) w Hs Hfit Hh (join_pack_rows _))
    as [_ Hrun].
  exact Hrun.
Qed.

(** C9.  The chunked send is applied to each row's bytes on its own.  When
    the 4 * C bytes of a row fit the buffer size, the testbench pass makes
    exactly one send per row, with that row's bytes, in row order; the
    EdgeRL pass, whose tuples have 4 values, makes exactly one send of 16
    bytes per tuple when the buffer size is at least 16.  So no record is
    split over two writes and no write holds two records. *)
Theorem C9_one_write_per_record :
  forall (send : nat -> outcome unit) (M : nat) (r : CaptureResult) (w : World),
    accepts send -> 0 < M ->
    (forall (variables : list string) (values : list (list float)) (N : nat),
        4 * length variables <= M ->
        holds r route_testbench_data.slaveTask variables values ->
        Forall (fun v => length v = N) values ->
        exists w',
          route_testbench_data.process send variables M r w = (w', Ret tt) /\
          calls w' = calls w
                     ++ map (fun row => Send (numpy.tobytes row))
                            (numpy.T (map (map float32) values)) /\
          Forall (fun row => length (numpy.tobytes row) = 4 * length variables)
                 (numpy.T (map (map float32) values))) /\
    (forall (a b c d : list float) (ps : list bytes),
        16 <= M ->
        holds r EdgeRL_DataAcquisition.slaveTask
              [EdgeRL_DataAcquisition.stateCurrentId;
               EdgeRL_DataAcquisition.stateCurrentIq;
               EdgeRL_DataAcquisition.trajectoryIdx;
               EdgeRL_DataAcquisition.trajectoryReset] [a; b; c; d] ->
        Forall2 (fun date p => EdgeRL_DataAcquisition.join_pack date = Ret p)
                (zip4 a b c d) ps ->
        exists w',
          EdgeRL_DataAcquisition.process send M r w = (w', Ret tt) /\
          calls w' = calls w ++ map Send ps /\
          Forall (fun p : bytes => length p = 16) ps).
Proof.
  intros send M r w Hs HM. split.
  - intros variables values N Hfit Hh Hall.
    destruct (@testbench_one_send_per_row send M r variables values N w
                Hs HM Hfit Hh Hall)
      as [Hshape [i' Hrun]].
    eexists. split; [exact Hrun|]. split; [|exact Hshape].
    cbn [calls after]. now rewrite map_map.
  - intros a b c d ps Hfit Hh Hp.
    destruct (@edgerl_one_send_per_tuple send M r a b c d ps w Hs Hfit Hh Hp)
      as [Hlen [i' Hrun]].
    eexists. split; [exact Hrun|]. split; [reflexivity|exact Hlen].
Qed.

Lemma C9_witness :
  exists w',
    route_testbench_data.process (fun _ => Ret tt) ["I_d"; "I_q"]%string 988
      (capture_result route_testbench_data.slaveTask
         [("I_d", [1%float; 2%float]); ("I_q", [3%float; 4%float])]%string)
      initial = (w', Ret tt) /\
    calls w' = calls initial
               ++ map (fun row => Send (numpy.tobytes row))
                      (numpy.T (map (map float32)
                                    [[1%float; 2%float]; [3%float; 4%float]])) /\
    Forall (fun row => length (numpy.tobytes row)
                       = 4 * length ["I_d"; "I_q"]%string)
           (numpy.T (map (map float32) [[1%float; 2%float]; [3%float; 4%float]])).
Proof.
  refine (proj1 (@C9_one_write_per_record
                   (fun _ => Ret tt) 988
                   (capture_result route_testbench_data.slaveTask
                      [("I_d", [1%float; 2%float]);
                       ("I_q", [3%float; 4%float])]%string)
                   initial _ _)
                ["I_d"; "I_q"]%string
                [[1%float; 2%float]; [3%float; 4%float]] 2 _ _ _).
  - intros n. reflexivity.
  - lia.
  - simpl. lia.
  - repeat constructor.
  - repeat constructor.
Defined.

(** ** Vectors of different lengths: claim C5 *)

Lemma zip4_truncate (A : Type) (a b c d : list A) :
  let n := Nat.min (Nat.min (length a) (length b))
                   (Nat.min (length c) (length d)) in
  zip4 a b c d = zip4 (firstn n a) (firstn n b) (firstn n c) (firstn n d).
Proof.
  revert b c d; induction a as [|x a IH]; intros b c d; [reflexivity|].
  destruct b as [|y b]; [reflexivity|].
  destruct c as [|z c]; [reflexivity|].
  destruct d as [|t d].
  - cbv zeta. cbn [length].
    replace (Nat.min (Nat.min (S (length a)) (S (length b)))
                     (Nat.min (S (length c)) 0)) with 0 by lia.
    reflexivity.
  - cbv zeta. cbn [length].
    replace (Nat.min (Nat.min (S (length a)) (S (length b)))
                     (Nat.min (S (length c)) (S (length d))))
      with (S (Nat.min (Nat.min (length a) (length b))
                       (Nat.min (length c) (length d)))) by lia.
    cbn [firstn zip4]. f_equal. apply IH.
Qed.

Lemma edgerl_process_zip (send : nat -> outcome unit) (M : nat)
      (r : CaptureResult) (a b c d : list float) (w : World) :
  holds r EdgeRL_DataAcquisition.slaveTask
        [EdgeRL_DataAcquisition.stateCurrentId;
         EdgeRL_DataAcquisition.stateCurrentIq;
         EdgeRL_DataAcquisition.trajectoryIdx;
         EdgeRL_DataAcquisition.trajectoryReset] [a; b; c; d] ->
  EdgeRL_DataAcquisition.process send M r w
  = for_each (zip4 a b c d)
      (fun date =>
         b <- lift (EdgeRL_DataAcquisition.join_pack date) ;;
         Transmitter.send_bytes send M b) w.
Proof.
  intros Hh. unfold EdgeRL_DataAcquisition.process.
  inversion Hh as [|? ? ? ? Ha Hh1]; subst.
  inversion Hh1 as [|? ? ? ? Hb Hh2]; subst.
  inversion Hh2 as [|? ? ? ? Hc Hh3]; subst.
  inversion Hh3 as [|? ? ? ? Hd _]; subst.
  erewrite bind_run by (apply signal_values_holds; exact Ha).
  erewrite bind_run by (apply signal_values_holds; exact Hb).
  erewrite bind_run by (apply signal_values_holds; exact Hc).
  erewrite bind_run by (apply signal_values_holds; exact Hd).
  reflexivity.
Qed.

(** C5, as the code has it.  The EdgeRL pass does not check the lengths of
    its four vectors and raises no InconsistentBatchLengthError: its zip
    stops at the shortest one, as the comment above it says ("the lower
    value for NSamples is used").  With [n] the least of the four lengths,
    the pass does exactly what it does on the capture result whose vectors
    are cut to their first [n] samples; it handles [n] tuples; and on a
    socket that takes every write, with a buffer of at least 16 bytes, it
    returns without an error after exactly [n] sends, the records of the
    first [n] samples in order. *)
Theorem C5_length_mismatch :
  forall (send : nat -> outcome unit) (M : nat) (w : World)
         (r : CaptureResult) (a b c d : list float) (n : nat),
    n = Nat.min (Nat.min (length a) (length b))
                (Nat.min (length c) (length d)) ->
    holds r EdgeRL_DataAcquisition.slaveTask
          [EdgeRL_DataAcquisition.stateCurrentId;
           EdgeRL_DataAcquisition.stateCurrentIq;
           EdgeRL_DataAcquisition.trajectoryIdx;
           EdgeRL_DataAcquisition.trajectoryReset] [a; b; c; d] ->
    (forall r' : CaptureResult,
        holds r' EdgeRL_DataAcquisition.slaveTask
              [EdgeRL_DataAcquisition.stateCurrentId;
               EdgeRL_DataAcquisition.stateCurrentIq;
               EdgeRL_DataAcquisition.trajectoryIdx;
               EdgeRL_DataAcquisition.trajectoryReset]
              [firstn n a; firstn n b; firstn n c; firstn n d] ->
        EdgeRL_DataAcquisition.process send M r w
        = EdgeRL_DataAcquisition.process send M r' w) /\
    length (zip4 a b c d) = n /\
    (accepts send -> 16 <= M ->
     exists w',
       EdgeRL_DataAcquisition.process send M r w = (w', Ret tt) /\
       calls w'
       = calls w
         ++ map Send
              (map (fun date => numpy.tobytes (map float32 date))
                   (zip4 (firstn n a) (firstn n b) (firstn n c) (firstn n d))) /\
       length (zip4 (firstn n a) (firstn n b) (firstn n c) (firstn n d)) = n).
Proof.
  intros send M w r a b c d n Hn Hr.
  assert (Hcut : zip4 a b c d
                 = zip4 (firstn n a) (firstn n b) (firstn n c) (firstn n d)).
  { rewrite Hn. apply zip4_truncate. }
  assert (Hlen : length (zip4 a b c d) = n).
  { rewrite Hn. apply zip4_length. }
  split; [|split; [exact Hlen|]].
  - intros r' Hr'.
    rewrite (edgerl_process_zip send M w Hr), (edgerl_process_zip send M w Hr').
    now rewrite <- Hcut.
  - intros Hs Hfit.
    destruct (@edgerl_pass_runs send M r a b c d w Hs Hfit Hr) as [i' Hrun].
    eexists. split; [exact Hrun|]. cbn [calls after]. rewrite <- Hcut.
    split; [reflexivity|exact Hlen].
Qed.

(** C5 as stated fails: with five samples of one variable and four of
    another the EdgeRL pass returns without an error after sending four
    records. *)
Lemma C5_counterexample :
  snd (EdgeRL_DataAcquisition.process (fun _ => Ret tt)
         Transmitter.BUFFER_SIZE uneven_batch initial) = Ret tt /\
  length (sent (calls (fst (EdgeRL_DataAcquisition.process (fun _ => Ret tt)
                              Transmitter.BUFFER_SIZE uneven_batch initial))))
  = 4.
Proof. split; vm_compute; reflexivity. Qed.

Lemma C5_witness :
  exists w',
    EdgeRL_DataAcquisition.process (fun _ => Ret tt) 988 uneven_batch initial
    = (w', Ret tt) /\
    calls w'
    = calls initial
      ++ map Send
           (map (fun date => numpy.tobytes (map float32 date))
                (zip4 (firstn 4 [1%float; 2%float; 3%float; 4%float; 5%float])
                      (firstn 4 [1%float; 2%float; 3%float; 4%float])
                      (firstn 4 [0%float; 1%float; 2%float; 3%float; 4%float])
                      (firstn 4 [0%float; 0%float; 0%float; 0%float; 0%float]))) /\
    length (zip4 (firstn 4 [1%float; 2%float; 3%float; 4%float; 5%float])
                 (firstn 4 [1%float; 2%float; 3%float; 4%float])
                 (firstn 4 [0%float; 1%float; 2%float; 3%float; 4%float])
                 (firstn 4 [0%float; 0%float; 0%float; 0%float; 0%float])) = 4.
Proof.
  refine (proj2 (proj2 (@C5_length_mismatch
                          (fun _ => Ret tt) 988 initial uneven_batch
                          [1%float; 2%float; 3%float; 4%float; 5%float]
                          [1%float; 2%float; 3%float; 4%float]
                          [0%float; 1%float; 2%float; 3%float; 4%float]
                          [0%float; 0%float; 0%float; 0%float; 0%float]
                          4 _ _)) _ _).
  - reflexivity.
  - repeat constructor.
  - intros k. reflexivity.
  - lia.
Defined.

(** ** The frames the scripts send, read back: claim C7 *)

Lemma array_inv (values : list (list float)) (a : list (list f32)) :
  numpy.array values = Ret a ->
  numpy.homogeneous values = true /\ a = map (map float32) values.
Proof.
  unfold numpy.array. destruct (numpy.homogeneous values); [|discriminate].
  intros H. apply Ret_inj in H. split; [reflexivity|now symmetry].
Qed.

Lemma T_rows_length (a : list (list f32)) :
  Forall (fun row => length row = length a) (numpy.T a).
Proof.
  unfold numpy.T. apply Forall_forall. intros row Hrow.
  apply in_map_iff in Hrow. destruct Hrow as [k [<- _]]. apply length_map.
Qed.

Lemma nth_Forall (A : Type) (P : A -> Prop) (l : list A) (d : A) (k : nat) :
  Forall P l -> P d -> P (nth k l d).
Proof.
  intros Hl Hd. revert k.
  induction Hl as [|x l Hx Hl IH]; intros [|k]; cbn [nth]; auto.
Qed.

Lemma row_f32 (xs : list float) : Forall is_f32 (map float32 xs).
Proof.
  apply Forall_forall. intros v Hv.
  apply in_map_iff in Hv. destruct Hv as [x [<- _]]. apply float32_is_f32.
Qed.

Lemma T_values_f32 (values : list (list float)) :
  Forall (Forall is_f32) (numpy.T (map (map float32) values)).
Proof.
  unfold numpy.T. apply Forall_forall. intros row Hrow.
  apply in_map_iff in Hrow. destruct Hrow as [k [<- _]].
  apply Forall_forall. intros v Hv.
  apply in_map_iff in Hv. destruct Hv as [r [<- Hr]].
  apply in_map_iff in Hr. destruct Hr as [xs [<- _]].
  apply nth_Forall; [apply row_f32|].
  unfold is_f32. split; [apply Z.le_refl|reflexivity].
Qed.

Lemma tuples_f32 (tuples : list (list float)) :
  Forall (Forall is_f32) (map (map float32) tuples).
Proof.
  apply Forall_forall. intros row Hrow.
  apply in_map_iff in Hrow. destruct Hrow as [date [<- _]]. apply row_f32.
Qed.

(** C7.  The consumer's reading, applied to the bytes of a frame, gives the
    frame's float32 values again, bit pattern for bit pattern.  This holds
    for every frame of rows of C >= 1 bit patterns of 32 bits, finite or
    not; every value the scripts put into a frame is such a pattern (the
    float32 of a double); so it holds for the rows of the array of the
    testbench pass, encoded by [tobytes], and for the tuples of the zip of
    the EdgeRL pass, encoded by the joined [struct.pack('f', val)], where
    what comes back is the float32 value of each double of the tuple. *)
Theorem C7_decode_encode_roundtrip :
  (forall x : float, is_f32 (float32 x)) /\
  (forall (C : nat) (frame : list (list f32)),
      C <> 0 ->
      Forall (fun row => length row = C) frame ->
      Forall (Forall is_f32) frame ->
      Consumer.decode C (flat_map numpy.tobytes frame) = frame) /\
  (forall (values : list (list float)) (a : list (list f32)),
      values <> [] ->
      numpy.array values = Ret a ->
      Consumer.decode (length values) (flat_map numpy.tobytes (numpy.T a))
      = numpy.T a) /\
  (forall a b c d : list float,
      exists ps : list bytes,
        Forall2 (fun date p => EdgeRL_DataAcquisition.join_pack date = Ret p)
                (zip4 a b c d) ps /\
        Consumer.decode 4 (concat ps) = map (map float32) (zip4 a b c d)).
Proof.
  split; [exact float32_is_f32|]. split; [exact decode_encode|]. split.
  - intros values a Hne Ha. destruct (array_inv _ Ha) as [_ ->].
    apply decode_encode.
    + destruct values; [congruence|discriminate].
    + rewrite <- (length_map (map float32) values). apply T_rows_length.
    + apply T_values_f32.
  - intros a b c d.
    exists (map (fun date => numpy.tobytes (map float32 date)) (zip4 a b c d)).
    split; [apply join_pack_rows|].
    rewrite <- (map_map (map float32) numpy.tobytes), concat_map_tobytes.
    apply decode_encode.
    + discriminate.
    + apply Forall_forall. intros row Hrow.
      apply in_map_iff in Hrow. destruct Hrow as [date [<- Hdate]].
      rewrite length_map.
      pose proof (zip4_tuples a b c d) as Ht. rewrite Forall_forall in Ht.
      now apply Ht.
    + apply tuples_f32.
Qed.

Lemma C7_witness :
  Consumer.decode (length [[1%float; 2%float]; [3%float; 4%float]])
    (flat_map numpy.tobytes
       (numpy.T [[float32 1%float; float32 2%float];
                 [float32 3%float; float32 4%float]]))
  = numpy.T [[float32 1%float; float32 2%float];
             [float32 3%float; float32 4%float]].
Proof.
  refine (proj1 (proj2 (proj2 C7_decode_encode_roundtrip))
                [[1%float; 2%float]; [3%float; 4%float]]
                [[float32 1%float; float32 2%float];
                 [float32 3%float; float32 4%float]] _ _).
  - discriminate.
  - reflexivity.
Defined.

(** ** A variable the capture result does not hold: claim C6 *)

Lemma list_comp_raise (r : CaptureResult) (pre post : list string)
      (variable : string) (vs : list (list float)) (e : exception) (w : World) :
  holds r route_testbench_data.slaveTask pre vs ->
  ExtractSignalValue r route_testbench_data.slaveTask variable = Raise e ->
  list_comp (route_testbench_data.extract_value r) (pre ++ variable :: post) w
  = (w, Raise e).
Proof.
  intros Hh He. induction Hh as [|x v pre vs Hx Hrest IH].
  - cbn [app list_comp]. apply bind_raise.
    unfold route_testbench_data.extract_value, bind, lift. now rewrite He.
  - cbn [app list_comp].
    erewrite bind_run by (apply extract_value_holds; exact Hx).
    apply bind_raise. exact IH.
Qed.

(** C6, as the code has it.  The extraction makes no test of its own and
    the scripts define no MissingChannelError: when [ExtractSignalValue]
    raises for a requested variable (the ones before it in the list being
    held), [extract_value], the array and the whole pass come to that very
    exception of the vendor's call, and nothing is sent. *)
Theorem C6_missing_channel :
  forall (send : nat -> outcome unit) (M : nat) (r : CaptureResult)
         (pre post : list string) (variable : string)
         (vs : list (list float)) (e : exception) (w : World),
    holds r route_testbench_data.slaveTask pre vs ->
    ExtractSignalValue r route_testbench_data.slaveTask variable = Raise e ->
    route_testbench_data.extract_value r variable w = (w, Raise e) /\
    route_testbench_data.fetched_signals_arr (pre ++ variable :: post) r w
    = (w, Raise e) /\
    route_testbench_data.process send (pre ++ variable :: post) M r w
    = (w, Raise e).
Proof.
  intros send M r pre post variable vs e w Hh He.
  assert (Harr : route_testbench_data.fetched_signals_arr
                   (pre ++ variable :: post) r w = (w, Raise e)).
  { unfold route_testbench_data.fetched_signals_arr.
    apply bind_raise. eapply list_comp_raise; eassumption. }
  split; [|split].
  - unfold route_testbench_data.extract_value, bind, lift. now rewrite He.
  - exact Harr.
  - unfold route_testbench_data.process. apply bind_raise. exact Harr.
Qed.

Lemma C6_witness :
  route_testbench_data.extract_value
    (capture_result route_testbench_data.slaveTask
       [("I_d", [1%float; 2%float])]%string) "I_q" initial
  = (initial, Raise (TestbenchPortException "I_q")) /\
  route_testbench_data.fetched_signals_arr (["I_d"] ++ "I_q" :: [])%string
    (capture_result route_testbench_data.slaveTask
       [("I_d", [1%float; 2%float])]%string) initial
  = (initial, Raise (TestbenchPortException "I_q")) /\
  route_testbench_data.process (fun _ => Ret tt)
    (["I_d"] ++ "I_q" :: [])%string 988
    (capture_result route_testbench_data.slaveTask
       [("I_d", [1%float; 2%float])]%string) initial
  = (initial, Raise (TestbenchPortException "I_q")).
Proof.
  apply (@C6_missing_channel (fun _ => Ret tt) 988
           (capture_result route_testbench_data.slaveTask
              [("I_d", [1%float; 2%float])]%string)
           ["I_d"%string] [] "I_q"%string [[1%float; 2%float]]
           (TestbenchPortException "I_q") initial).
  - repeat constructor.
  - reflexivity.
Defined.

(** C6 as stated fails: the exception that comes out is the vendor's, not a
    MissingChannelError. *)
Lemma C6_counterexample :
  exists e : exception,
    snd (route_testbench_data.fetched_signals_arr ["I_d"; "I_q"]%string
           (capture_result route_testbench_data.slaveTask
              [("I_d", [1%float; 2%float])]%string) initial) = Raise e /\
    exc_class e <> "MissingChannelError"%string.
Proof.
  exists (TestbenchPortException "I_q"). split; [reflexivity|discriminate].
Qed.

(** ** What a piece of the scripts can add to the log *)

Lemma appends_nil (p : Call -> bool) (w : World) :
  exists cs, calls w = calls w ++ cs /\ forallb p cs = true /\
             DemoCapture w = DemoCapture w /\ DemoMAPort w = DemoMAPort w.
Proof. exists []. rewrite app_nil_r. repeat split. Qed.

Lemma appends_ret (p : Call -> bool) (A : Type) (a : A) : appends p (ret a).
Proof. intros w w' o H. inversion H; subst. apply appends_nil. Qed.

Lemma appends_raise (p : Call -> bool) (A : Type) (e : exception) :
  appends p (@raise A e).
Proof. intros w w' o H. inversion H; subst. apply appends_nil. Qed.

Lemma appends_lift (p : Call -> bool) (A : Type) (o : outcome A) :
  appends p (lift o).
Proof. intros w w' o' H. inversion H; subst. apply appends_nil. Qed.

Lemma appends_call (p : Call -> bool) (A : Type) (c : Call) (o : outcome A) :
  p c = true -> appends p (call c o).
Proof.
  intros Hc w w' o' H. inversion H; subst. exists [c].
  cbn. rewrite Hc. repeat split.
Qed.

Lemma appends_bind (p : Call -> bool) (A B : Type) (m : IO A) (k : A -> IO B) :
  appends p m -> (forall a, appends p (k a)) -> appends p (bind m k).
Proof.
  intros Hm Hk w w' o H. unfold bind in H.
  destruct (m w) as [w1 [a|e|]] eqn:Em.
  - destruct (Hm _ _ _ Em) as [cs1 [H1 [P1 [C1 D1]]]].
    destruct (Hk a _ _ _ H) as [cs2 [H2 [P2 [C2 D2]]]].
    exists (cs1 ++ cs2). rewrite H2, H1, app_assoc, forallb_app, P1, P2.
    repeat split; congruence.
  - inversion H; subst. exact (Hm _ _ _ Em).
  - inversion H; subst. exact (Hm _ _ _ Em).
Qed.

Lemma appends_weaken (p q : Call -> bool) (A : Type) (m : IO A) :
  (forall c, p c = true -> q c = true) -> appends p m -> appends q m.
Proof.
  intros Hpq Hm w w' o H. destruct (Hm _ _ _ H) as [cs [H1 [P1 HF]]].
  exists cs. split; [exact H1|]. split; [|exact HF].
  rewrite forallb_forall in *. auto.
Qed.

Lemma appends_set_i (p : Call -> bool) (k : nat) : appends p (set_i k).
Proof. intros w w' o H. inversion H; subst. cbn. apply appends_nil. Qed.

Lemma appends_get_i (p : Call -> bool) : appends p get_i.
Proof.
  intros w w' o H. unfold get_i in H.
  destruct (loop_i w); inversion H; subst; apply appends_nil.
Qed.

Lemma appends_set_count (p : Call -> bool) (k : nat) :
  appends p (set_capture_count k).
Proof. intros w w' o H. inversion H; subst. cbn. apply appends_nil. Qed.

Lemma appends_incr (p : Call -> bool) : appends p incr_capture_count.
Proof.
  intros w w' o H. unfold incr_capture_count in H.
  destruct (capture_count w) as [k|].
  - exact (@appends_set_count p (k + 1) w w' o H).
  - inversion H; subst. apply appends_nil.
Qed.

Lemma appends_for_i (p : Call -> bool) (body : nat -> IO unit) (ks : list nat) :
  (forall k, appends p (body k)) -> appends p (for_i ks body).
Proof.
  intros Hb. induction ks as [|k ks IH]; cbn [for_i].
  - apply appends_ret.
  - apply appends_bind; [apply appends_set_i|]. intros _.
    apply appends_bind; [apply Hb|]. intros _. exact IH.
Qed.

Lemma appends_for_each (p : Call -> bool) (A : Type) (body : A -> IO unit)
      (xs : list A) :
  (forall x, appends p (body x)) -> appends p (for_each xs body).
Proof.
  intros Hb. induction xs as [|x xs IH]; cbn [for_each].
  - apply appends_ret.
  - apply appends_bind; [apply Hb|]. intros _. exact IH.
Qed.

Lemma appends_list_comp (p : Call -> bool) (A B : Type) (f : A -> IO B)
      (xs : list A) :
  (forall x, appends p (f x)) -> appends p (list_comp f xs).
Proof.
  intros Hf. induction xs as [|x xs IH]; cbn [list_comp].
  - apply appends_ret.
  - apply appends_bind; [apply Hf|]. intros y.
    apply appends_bind; [exact IH|]. intros ys. apply appends_ret.
Qed.

Lemma appends_data_socket_send (send : nat -> outcome unit) (b : bytes) :
  appends is_send (Transmitter.data_socket_send send b).
Proof.
  intros w w' o H. unfold Transmitter.data_socket_send in H.
  eapply (@appends_call is_send); [|exact H]. reflexivity.
Qed.

Lemma appends_send_bytes (send : nat -> outcome unit) (M : nat) (b : bytes) :
  appends is_send (Transmitter.send_bytes send M b).
Proof.
  unfold Transmitter.send_bytes.
  destruct (length b <=? M); [apply appends_data_socket_send|].
  apply appends_bind; [apply appends_lift|]. intros q.
  apply appends_bind.
  { apply appends_for_i. intros k. apply appends_data_socket_send. }
  intros _. apply appends_bind; [apply appends_get_i|]. intros i.
  destruct ((i + 1) * M <? length b);
    [apply appends_data_socket_send|apply appends_ret].
Qed.

Lemma appends_testbench_process (send : nat -> outcome unit)
      (variables : list string) (M : nat) (r : CaptureResult) :
  appends is_send (route_testbench_data.process send variables M r).
Proof.
  unfold route_testbench_data.process, route_testbench_data.fetched_signals_arr.
  apply appends_bind.
  - apply appends_bind.
    + apply appends_list_comp. intros x.
      unfold route_testbench_data.extract_value.
      apply appends_bind; [apply appends_lift|]. intros v. apply appends_ret.
    + intros values. apply appends_bind; [apply appends_lift|].
      intros a. apply appends_ret.
  - intros arr. apply appends_for_each. intros row. apply appends_send_bytes.
Qed.

Lemma appends_signal_values (p : Call -> bool) (r : CaptureResult)
      (variable : string) :
  appends p (EdgeRL_DataAcquisition.signal_values r variable).
Proof.
  unfold EdgeRL_DataAcquisition.signal_values.
  apply appends_bind; [apply appends_lift|]. intros v. apply appends_ret.
Qed.

Lemma appends_edgerl_process (send : nat -> outcome unit) (M : nat)
      (r : CaptureResult) :
  appends is_send (EdgeRL_DataAcquisition.process send M r).
Proof.
  unfold EdgeRL_DataAcquisition.process.
  repeat (apply appends_bind; [apply appends_signal_values|]; intros ?).
  apply appends_for_each. intros date.
  apply appends_bind; [apply appends_lift|]. intros b.
  apply appends_send_bytes.
Qed.

(** ** A payload of no bytes: claim C8 *)















(** ** Runs that return *)

Lemma runs_bind (A B : Type) (m : IO A) (k : A -> IO B) (w : World)
      (cs cs' : list Call) (a : A) (b : B) :
  runs m w cs a ->
  (forall w', calls w' = calls w ++ cs ->
              DemoCapture w' = DemoCapture w ->
              DemoMAPort w' = DemoMAPort w ->
              (counting w -> counting w') ->
              runs (k a) w' cs' b) ->
  runs (bind m k) w (cs ++ cs') b.
Proof.
  intros [w1 [H1 [C1 [D1 [E1 F1]]]]] Hk.
  destruct (Hk w1 C1 D1 E1 F1) as [w2 [H2 [C2 [D2 [E2 F2]]]]].
  exists w2. erewrite bind_run by exact H1. split; [exact H2|].
  split; [now rewrite C2, C1, app_assoc|].
  split; [congruence|]. split; [congruence|]. auto.
Qed.

Lemma runs_ret (A : Type) (a : A) (w : World) : runs (ret a) w [] a.
Proof. exists w. rewrite app_nil_r. repeat split; auto. Qed.

Lemma runs_lift (A : Type) (a : A) (w : World) : runs (lift (Ret a)) w [] a.
Proof. exists w. rewrite app_nil_r. repeat split; auto. Qed.

Lemma runs_call (A : Type) (c : Call) (a : A) (w : World) :
  runs (call c (Ret a)) w [c] a.
Proof. exists (log c w). repeat split; auto. Qed.

Lemma bind_set_count (B : Type) (k : nat) (f : unit -> IO B) (w : World) :
  bind (set_capture_count k) f w = f tt (fst (set_capture_count k w)).
Proof. reflexivity. Qed.

(** After [capture_count = k] the name is bound, whatever it was. *)
Lemma runs_set_count (B : Type) (k : nat) (f : unit -> IO B) (w : World)
      (cs : list Call) (b : B) :
  (forall w', calls w' = calls w ->
              DemoCapture w' = DemoCapture w ->
              DemoMAPort w' = DemoMAPort w ->
              counting w' ->
              runs (f tt) w' cs b) ->
  runs (bind (set_capture_count k) f) w cs b.
Proof.
  intros Hf. unfold runs. rewrite bind_set_count.
  destruct (Hf (fst (set_capture_count k w)))
    as [w2 [H2 [C2 [D2 [E2 F2]]]]]; try reflexivity.
  { cbn. discriminate. }
  exists w2. split; [exact H2|]. repeat split; try assumption.
  intros _. apply F2. cbn. discriminate.
Qed.

Lemma runs_incr (w : World) :
  counting w -> runs incr_capture_count w [] tt.
Proof.
  unfold runs, counting, incr_capture_count. intros Hw.
  destruct (capture_count w) as [k|] eqn:Ek; [|congruence].
  eexists. split; [reflexivity|]. cbn. rewrite app_nil_r.
  repeat split. intros _. discriminate.
Qed.

Lemma runs_eq (A : Type) (m : IO A) (w : World) (cs cs' : list Call) (a : A) :
  runs m w cs a -> cs = cs' -> runs m w cs' a.
Proof. intros H <-. exact H. Qed.

Lemma count_app (p : Call -> bool) (l l' : list Call) :
  count p (l ++ l') = count p l + count p l'.
Proof. unfold count. now rewrite filter_app, length_app. Qed.

Lemma count_fetch_sends (recs : list bytes) :
  count is_fetch (map Send recs) = 0.
Proof. induction recs as [|p recs IH]; [reflexivity|exact IH]. Qed.

Lemma count_fetch_sleeps (n ms : nat) :
  count is_fetch (repeat (Sleep ms) n) = 0.
Proof. induction n as [|n IH]; [reflexivity|exact IH]. Qed.

Section Runs.

Variable script : Script.
Variable pl : Platform.
Hypothesis Hsend : accepts (send pl).

Lemma process_delivers (r : CaptureResult) (recs : list bytes) (w : World) :
  delivers script r recs ->
  runs (Session.process script pl r) w (map Send recs) tt.
Proof.
  unfold delivers, Session.process. destruct script.
  - intros [values [N [Hh [Hall ->]]]].
    destruct (@testbench_one_send_per_row
                (send pl) Transmitter.BUFFER_SIZE r
                route_testbench_data.var_capture_l values N w)
      as [_ [i' Hrun]]; try assumption.
    + unfold Transmitter.BUFFER_SIZE. lia.
    + unfold Transmitter.BUFFER_SIZE, route_testbench_data.var_capture_l.
      cbn [length]. lia.
    + eexists. split; [exact Hrun|]. repeat split. exact (fun H => H).
  - intros [a [b [c [d [Hh Hp]]]]].
    destruct (@edgerl_one_send_per_tuple
                (send pl) Transmitter.BUFFER_SIZE r a b c d recs w)
      as [_ [i' Hrun]]; try assumption.
    + unfold Transmitter.BUFFER_SIZE. lia.
    + eexists. split; [exact Hrun|]. repeat split. exact (fun H => H).
Qed.

Lemma wait_run (pre : list CaptureState) (rest : list (outcome CaptureState)) :
  Forall (fun s => s <> eRUNNING) pre ->
  forall w,
    runs (Session.wait_until_running (map (@Ret CaptureState) pre
                                          ++ Ret eRUNNING :: rest))
         w (repeat (Sleep 20) (length pre)) rest.
Proof.
  induction 1 as [|s pre Hs Hpre IH]; intros w;
    cbn [map app Session.wait_until_running length repeat].
  - eapply (@runs_bind _ _ _ _ w [] []); [apply runs_lift|].
    intros w' _ _ _ _. cbn [state_eqb negb]. apply runs_ret.
  - eapply (@runs_bind _ _ _ _ w [] (Sleep 20 :: repeat (Sleep 20) (length pre)));
      [apply runs_lift|].
    intros w' _ _ _ _.
    destruct s; try congruence; cbn [state_eqb negb];
      eapply (@runs_bind _ _ _ _ w' [Sleep 20]); try apply runs_call;
      intros w'' _ _ _ _; apply IH.
Qed.

Lemma fetch_run (j : nat) (r : CaptureResult) (w : World) :
  count is_fetch (calls w) = j -> fetch pl j = Ret r ->
  runs (Session.DemoCapture_Fetch pl) w [Fetch] r.
Proof.
  intros Hc Hf. exists (log Fetch w). unfold Session.DemoCapture_Fetch, call.
  rewrite Hc, Hf. repeat split. exact (fun H => H).
Qed.

Lemma fetch_loop_run (recs : nat -> list bytes)
      (tail : list (outcome CaptureState)) (k : nat) :
  forall (j0 : nat) (w : World),
    counting w ->
    count is_fetch (calls w) = j0 ->
    (forall j, j < k ->
               exists r, fetch pl (j0 + j) = Ret r /\
                         delivers script r (recs (j0 + j))) ->
    runs (Session.fetch_until_finished script pl
            (repeat (Ret eRUNNING) k ++ Ret eFINISHED :: tail))
         w (flat_map (fun j => Fetch :: map Send (recs j)) (seq j0 k)) tail.
Proof.
  induction k as [|k IH]; intros j0 w Hw Hc Hf;
    cbn [repeat app Session.fetch_until_finished seq flat_map].
  - eapply (@runs_bind _ _ _ _ w [] []); [apply runs_lift|].
    intros w' _ _ _ _. cbn [state_eqb negb]. apply runs_ret.
  - destruct (Hf 0 ltac:(lia)) as [r [Hr Hd]].
    rewrite Nat.add_0_r in Hr, Hd.
    eapply (@runs_bind _ _ _ _ w []
             ((Fetch :: map Send (recs j0))
              ++ flat_map (fun j => Fetch :: map Send (recs j)) (seq (S j0) k)));
      [apply runs_lift|].
    intros w0 C0 _ _ F0. rewrite app_nil_r in C0. cbn [state_eqb negb].
    eapply runs_eq.
    + eapply (@runs_bind _ _ _ _ w0 [Fetch]).
      { apply (@fetch_run j0); [|exact Hr]. now rewrite C0. }
      intros w1 C1 _ _ F1.
      eapply (@runs_bind _ _ _ _ w1 (map Send (recs j0)));
        [now apply process_delivers|].
      intros w2 C2 _ _ F2.
      eapply (@runs_bind _ _ _ _ w2 []); [apply runs_incr; auto|].
      intros w3 C3 _ _ F3.
      apply (IH (S j0)).
      * auto.
      * rewrite C3, C2, C1, C0, app_nil_r, !count_app, Hc, count_fetch_sends.
        cbn. lia.
      * intros j Hj. destruct (Hf (S j) ltac:(lia)) as [r' [Hr' Hd']].
        replace (S j0 + j) with (j0 + S j) by lia. eauto.
    + reflexivity.
Qed.

End Runs.

(** ** Set-up, finally block and the whole run *)

Lemma setup_boots (script : Script) (pl : Platform) :
  bootstrap pl = Boots -> connect pl = Ret tt ->
  exists w1,
    Session.setup script pl initial = (w1, Ret tt) /\
    calls w1 = setup_calls script /\
    DemoCapture w1 = true /\ DemoMAPort w1 = true.
Proof.
  intros Hb Hc. unfold Session.setup. rewrite Hb.
  destruct script; unfold bind, call, set_DemoMAPort, set_DemoCapture, ret;
    cbn; rewrite ?Hc; eexists; repeat split.
Qed.

Lemma setup_frame (script : Script) (pl : Platform) (w w' : World)
      (o : outcome unit) :
  Session.setup script pl w = (w', o) ->
  exists cs,
    calls w' = calls w ++ cs /\ forallb before_teardown cs = true /\
    DemoCapture w' = (DemoCapture w || capture_created pl)%bool /\
    DemoMAPort w' = (DemoMAPort w || port_created pl)%bool.
Proof.
  unfold Session.setup, capture_created, port_created.
  destruct w as [cs0 dc dp i n].
  destruct (bootstrap pl) as [e|e|e|].
  - intros H. inversion H; subst. exists []. cbn.
    now rewrite app_nil_r, !orb_false_r.
  - intros H. inversion H; subst. exists []. cbn.
    now rewrite app_nil_r, orb_false_r, orb_true_r.
  - intros H. inversion H; subst. exists []. cbn.
    now rewrite app_nil_r, !orb_true_r.
  - destruct script.
    + intros H. inversion H; subst. exists [Start; Sleep 2000]. cbn.
      now rewrite <- app_assoc, !orb_true_r.
    + unfold bind, call, set_DemoMAPort, set_DemoCapture. cbn.
      destruct (connect pl) as [[]|e|]; intros H; inversion H; subst; cbn.
      * exists [Start; Connect; Sleep 2000].
        now rewrite <- !app_assoc, !orb_true_r.
      * exists [Start; Connect]. now rewrite <- !app_assoc, !orb_true_r.
      * exists [Start; Connect]. now rewrite <- !app_assoc, !orb_true_r.
Qed.

Lemma dispose_run (pl : Platform) (w : World) :
  dispose_capture pl = Ret tt -> dispose_port pl = Ret tt ->
  exists w',
    Session.dispose pl w = (w', Ret tt) /\
    calls w' = calls w
               ++ (if DemoCapture w then [DisposeCapture] else [])
               ++ (if DemoMAPort w then [DisposePort] else []) /\
    DemoCapture w' = false /\ DemoMAPort w' = false.
Proof.
  intros Hc Hp. destruct w as [cs0 dc dp i n].
  unfold Session.dispose, bind, call, set_DemoCapture, set_DemoMAPort, ret.
  destruct dc, dp; cbn; rewrite ?Hc; cbn; rewrite ?Hp; cbn;
    eexists; (split; [reflexivity|]); cbn;
    rewrite <- ?app_assoc, ?app_nil_r; repeat split.
Qed.


Lemma appends_wait (reads : list (outcome CaptureState)) :
  appends is_sleep (Session.wait_until_running reads).
Proof.
  induction reads as [|r rest IH]; cbn [Session.wait_until_running].
  - apply appends_lift.
  - apply appends_bind; [apply appends_lift|]. intros state.
    destruct (negb (state_eqb state eRUNNING)); [|apply appends_ret].
    apply appends_bind; [now apply appends_call|]. intros _. exact IH.
Qed.

Lemma appends_session_process (script : Script) (pl : Platform)
      (r : CaptureResult) :
  appends is_send (Session.process script pl r).
Proof.
  unfold Session.process. destruct script;
    [apply appends_testbench_process|apply appends_edgerl_process].
Qed.

Lemma appends_fetch_loop (script : Script) (pl : Platform)
      (reads : list (outcome CaptureState)) :
  appends (fun c => is_fetch c || is_send c)%bool
          (Session.fetch_until_finished script pl reads).
Proof.
  induction reads as [|r rest IH]; cbn [Session.fetch_until_finished].
  - apply appends_lift.
  - apply appends_bind; [apply appends_lift|]. intros state.
    destruct (negb (state_eqb state eFINISHED)); [|apply appends_ret].
    apply appends_bind.
    { intros w w' o H. unfold Session.DemoCapture_Fetch in H.
      eapply appends_call; [|exact H]. reflexivity. }
    intros res. apply appends_bind.
    { eapply appends_weaken; [|apply appends_session_process].
      intros c Hc. now rewrite Hc, orb_true_r. }
    intros _. apply appends_bind; [apply appends_incr|]. intros _. exact IH.
Qed.

(** The working part of the body: everything before the two closes. *)
Lemma body_frame (script : Script) (pl : Platform) (w1 : World)
      (o : outcome unit) :
  Session.body script pl initial = (w1, o) ->
  DemoCapture w1 = capture_created pl /\
  DemoMAPort w1 = port_created pl /\
  match o with
  | Ret _ => exists cs, calls w1 = cs ++ [CloseData; CloseWeights] /\
                        forallb before_teardown cs = true
  | _ => forallb before_teardown (calls w1) = true
  end.
Proof.
  unfold Session.body. intros H. unfold bind at 1 in H.
  destruct (Session.setup script pl initial) as [wa oa] eqn:Es.
  destruct (setup_frame _ _ _ Es) as [csa [Ca [Pa [Da Ea]]]].
  change (calls initial ++ csa) with csa in Ca. cbn in Da, Ea.
  destruct oa as [[]|e|];
    [|injection H as <- <-; rewrite Ca; repeat split; assumption..].
  unfold bind at 1 in H.
  destruct (Session.wait_until_running (state_reads pl) wa) as [wb ob] eqn:Ew.
  destruct (appends_wait _ _ Ew) as [csb [Cb [Pb [Db Eb]]]].
  assert (Pb' : forallb before_teardown csb = true).
  { rewrite forallb_forall in *. intros c Hc. specialize (Pb c Hc).
    destruct c; try discriminate; reflexivity. }
  destruct ob as [rest|e|];
    [|injection H as <- <-; rewrite Cb, Ca, forallb_app, Pa, Pb';
      repeat split; congruence..].
  rewrite bind_set_count in H. unfold bind at 1 in H.
  destruct (Session.fetch_until_finished script pl rest
              (fst (set_capture_count 0 wb))) as [wc oc] eqn:Ef.
  destruct (appends_fetch_loop _ _ _ _ Ef) as [csc [Cc [Pc [Dc Ec]]]].
  cbn [fst set_capture_count calls DemoCapture DemoMAPort] in Cc, Dc, Ec.
  assert (Pc' : forallb before_teardown csc = true).
  { rewrite forallb_forall in *. intros c Hc. specialize (Pc c Hc).
    destruct c; try discriminate; reflexivity. }
  destruct oc as [rest'|e|];
    [|injection H as <- <-; rewrite Cc, Cb, Ca, !forallb_app, Pa, Pb', Pc';
      repeat split; congruence..].
  injection H as <- <-. cbn.
  split; [congruence|]. split; [congruence|].
  exists (csa ++ csb ++ csc).
  rewrite Cc, Cb, Ca, !forallb_app, Pa, Pb', Pc', <- !app_assoc.
  split; reflexivity.
Qed.

Lemma count_fetch_passes (recs : nat -> list bytes) (js : list nat) :
  count is_fetch (flat_map (fun j => Fetch :: map Send (recs j)) js)
  = length js.
Proof.
  induction js as [|j js IH]; [reflexivity|].
  cbn [flat_map].
  transitivity (S (count is_fetch
                     (map Send (recs j)
                      ++ flat_map (fun j => Fetch :: map Send (recs j)) js)));
    [reflexivity|].
  rewrite count_app, count_fetch_sends, IH. reflexivity.
Qed.

Lemma count_fetch_setup (script : Script) : count is_fetch (setup_calls script) = 0.
Proof. destruct script; reflexivity. Qed.


(** ** The passes of the fetch loop: claim C3 *)

(** C3, as the code has it.  Let the state be read as the states of [pre]
    (none of them Running; Idle and Armed in the scenario), then Running,
    then Running [k] more times, then Finished, every fetch returning a
    capture result the pass can handle, and nothing failing.  The first
    Running reading ends the wait loop; each of the [k] further ones starts
    one pass of the fetch loop.  So the run makes exactly [k] fetches, each
    followed by the sends of its records (one batch for the readings Idle,
    Armed, Running, Running, Finished); when Finished is read the loop ends
    with no further fetch; then the data socket and the weights socket are
    closed and the capture and the port are disposed, each once. *)
Theorem C3_passes_of_the_fetch_loop :
  forall (script : Script) (pl : Platform) (pre : list CaptureState) (k : nat)
         (tail : list (outcome CaptureState)) (recs : nat -> list bytes),
    bootstrap pl = Boots -> connect pl = Ret tt ->
    Forall (fun s => s <> eRUNNING) pre ->
    state_reads pl = map (@Ret CaptureState) pre
                     ++ Ret eRUNNING :: repeat (Ret eRUNNING) k
                     ++ Ret eFINISHED :: tail ->
    (forall j, j < k ->
               exists r, fetch pl j = Ret r /\ delivers script r (recs j)) ->
    accepts (send pl) ->
    dispose_capture pl = Ret tt -> dispose_port pl = Ret tt ->
    exists w',
      Session.main script pl initial = (w', Ret tt) /\
      calls w' = setup_calls script
                 ++ repeat (Sleep 20) (length pre)
                 ++ flat_map (fun j => Fetch :: map Send (recs j)) (seq 0 k)
                 ++ [CloseData; CloseWeights; DisposeCapture; DisposePort] /\
      count is_fetch (calls w') = k.
Proof.
  intros script pl pre k tail recs Hb Hc Hpre Hreads Hf Hs Hdc Hdp.
  destruct (@setup_boots script pl Hb Hc) as [w1 [H1 [C1 [D1 E1]]]].
  assert (Hrest :
    runs (rest <- Session.wait_until_running (state_reads pl) ;;
          set_capture_count 0 ;;
          _ <- Session.fetch_until_finished script pl rest ;;
          call CloseData (Ret tt) ;; call CloseWeights (Ret tt))
         w1
         (repeat (Sleep 20) (length pre)
          ++ flat_map (fun j => Fetch :: map Send (recs j)) (seq 0 k)
          ++ [CloseData] ++ [CloseWeights]) tt).
  { rewrite Hreads.
    eapply runs_bind; [now apply wait_run|].
    intros w2 C2 _ _ _.
    apply runs_set_count. intros w2' C2' _ _ F2.
    eapply runs_bind.
    { apply (@fetch_loop_run script pl Hs recs tail k 0).
      - exact F2.
      - now rewrite C2', C2, C1, count_app, count_fetch_setup,
          count_fetch_sleeps.
      - exact Hf. }
    intros w3 C3 _ _ _.
    eapply runs_bind; [apply runs_call|].
    intros w4 C4 _ _ _. apply runs_call. }
  destruct Hrest as [w5 [H5 [C5 [D5 [E5 _]]]]].
  assert (Hbody : Session.body script pl initial = (w5, Ret tt)).
  { unfold Session.body. erewrite bind_run by exact H1. exact H5. }
  destruct (@dispose_run pl w5 Hdc Hdp) as [w6 [H6 [C6 _]]].
  exists w6. unfold Session.main, try_finally. rewrite Hbody, H6.
  split; [reflexivity|].
  assert (Hlog : calls w6 = setup_calls script
                 ++ repeat (Sleep 20) (length pre)
                 ++ flat_map (fun j => Fetch :: map Send (recs j)) (seq 0 k)
                 ++ [CloseData; CloseWeights; DisposeCapture; DisposePort]).
  { rewrite C6, C5, C1, D5, E5, D1, E1, <- !app_assoc. reflexivity. }
  split; [exact Hlog|].
  rewrite Hlog, !count_app, count_fetch_setup, count_fetch_sleeps,
    count_fetch_passes, length_seq. cbn. lia.
Qed.

Lemma sample_batch_delivers : delivers Testbench sample_batch [sample_record].
Proof.
  exists [[1%float]; [2%float]; [3%float]; [4%float]], 1.
  split; [repeat constructor|]. split; [repeat constructor|reflexivity].
Qed.

Lemma C3_witness :
  exists w',
    Session.main Testbench (scenario_platform 1) initial = (w', Ret tt) /\
    calls w' = [Start; Sleep 2000; Sleep 20; Sleep 20;
                Fetch; Send sample_record;
                CloseData; CloseWeights; DisposeCapture; DisposePort] /\
    count is_fetch (calls w') = 1.
Proof.
  apply (@C3_passes_of_the_fetch_loop
           Testbench (scenario_platform 1) [Idle; Armed] 1 []
           (fun _ => [sample_record])).
  - reflexivity.
  - reflexivity.
  - repeat constructor; discriminate.
  - reflexivity.
  - intros j _. exists sample_batch. split; [reflexivity|].
    exact sample_batch_delivers.
  - intros n. reflexivity.
  - reflexivity.
  - reflexivity.
Defined.

(** C3 as stated fails.  Two batches and a drain fetch would be three
    fetches.  With the readings Idle, Armed, Running, Running, Finished the
    run makes one fetch and sends one batch; with Running read once more it
    makes two fetches and sends two batches, and still none after
    Finished. *)
Lemma C3_counterexample :
  (count is_fetch
     (calls (fst (Session.main Testbench (scenario_platform 1) initial))) = 1 /\
   sent (calls (fst (Session.main Testbench (scenario_platform 1) initial)))
   = [sample_record]) /\
  (count is_fetch
     (calls (fst (Session.main Testbench (scenario_platform 2) initial))) = 2 /\
   sent (calls (fst (Session.main Testbench (scenario_platform 2) initial)))
   = [sample_record; sample_record]).
Proof. repeat split; vm_compute; reflexivity. Qed.

(** ** Teardown: claim C4 *)




(* ================================================================== *)
(** * Further properties of the scripts *)

(** ** The chunked send on a socket that fails *)

Lemma count_send_sends (A : Type) (f : A -> bytes) (xs : list A) :
  count is_send (map (fun x => Send (f x)) xs) = length xs.
Proof.
  induction xs as [|x xs IH]; [reflexivity|].
  cbn [map]. change (count is_send (Send (f x) :: ?l)) with (S (count is_send l)).
  unfold count in *. cbn [filter is_send length]. now rewrite IH.
Qed.

Lemma bind_fail_unit (m : IO unit) (k : unit -> IO unit) (w w1 : World)
      (o : outcome unit) :
  m w = (w1, o) -> o <> Ret tt -> bind m k w = (w1, o).
Proof.
  intros H Ho. unfold bind. rewrite H.
  destruct o as [[]|e|]; [congruence|reflexivity|reflexivity].
Qed.

Section AnySocket.

Variable send : nat -> outcome unit.

Lemma data_socket_send_answer (b : bytes) (w : World) :
  Transmitter.data_socket_send send b w
  = (after w [Send b] (loop_i w), send (count is_send (calls w))).
Proof. reflexivity. Qed.

Lemma for_i_sends_while (f : nat -> bytes) (ks : list nat) :
  forall w,
    (forall i, i < length ks -> send (count is_send (calls w) + i) = Ret tt) ->
    for_i ks (fun k => Transmitter.data_socket_send send (f k)) w
    = (after w (map (fun k => Send (f k)) ks)
             (match ks with [] => loop_i w | _ => Some (last ks 0) end),
       Ret tt).
Proof.
  induction ks as [|k ks IH]; intros w Hok.
  - simpl. unfold ret. now rewrite after_nil.
  - cbn [for_i]. unfold bind at 1. cbn [set_i].
    assert (H0 : send (count is_send (calls w)) = Ret tt).
    { rewrite <- (Hok 0) by (cbn; lia). now rewrite Nat.add_0_r. }
    unfold bind at 1. rewrite data_socket_send_answer. cbn [calls loop_i].
    rewrite H0. rewrite IH.
    + rewrite after_after. cbn [loop_i after]. f_equal. unfold after; cbn.
      f_equal. destruct ks; reflexivity.
    + intros i Hi. cbn [calls after]. rewrite count_app.
      change (count is_send [Send (f k)]) with 1.
      replace (count is_send (calls w) + 1 + i)
        with (count is_send (calls w) + S i) by lia.
      apply Hok. cbn. lia.
Qed.

Lemma for_i_sends_fail (f : nat -> bytes) (ks : list nat) :
  forall (w : World) (j : nat),
    j < length ks ->
    (forall i, i < j -> send (count is_send (calls w) + i) = Ret tt) ->
    send (count is_send (calls w) + j) <> Ret tt ->
    exists w',
      for_i ks (fun k => Transmitter.data_socket_send send (f k)) w
      = (w', send (count is_send (calls w) + j)) /\
      calls w' = calls w ++ map (fun k => Send (f k)) (firstn (S j) ks).
Proof.
  induction ks as [|k ks IH]; intros w j Hj Hok Hfail; [cbn in Hj; lia|].
  cbn [for_i]. unfold bind at 1. cbn [set_i].
  destruct j as [|j].
  - rewrite Nat.add_0_r in *. eexists. split.
    + apply bind_fail_unit; [|exact Hfail].
      rewrite data_socket_send_answer. reflexivity.
    + reflexivity.
  - assert (H0 : send (count is_send (calls w)) = Ret tt).
    { rewrite <- (Hok 0) by lia. now rewrite Nat.add_0_r. }
    unfold bind at 1. rewrite data_socket_send_answer. cbn [calls loop_i].
    rewrite H0.
    destruct (IH (after {| calls := calls w; DemoCapture := DemoCapture w;
                           DemoMAPort := DemoMAPort w; loop_i := Some k;
                           capture_count := capture_count w |}
                        [Send (f k)] (Some k)) j) as [w' [Hrun Hcalls]].
    + cbn in Hj. lia.
    + intros i Hi. cbn [calls after]. rewrite count_app.
      change (count is_send [Send (f k)]) with 1.
      replace (count is_send (calls w) + 1 + i)
        with (count is_send (calls w) + S i) by lia.
      apply Hok. lia.
    + cbn [calls after]. rewrite count_app.
      change (count is_send [Send (f k)]) with 1.
      replace (count is_send (calls w) + 1 + j)
        with (count is_send (calls w) + S j) by lia.
      exact Hfail.
    + exists w'. split.
      * rewrite Hrun. cbn [calls after]. rewrite count_app.
        change (count is_send [Send (f k)]) with 1.
        replace (count is_send (calls w) + 1 + j)
          with (count is_send (calls w) + S j) by lia.
        reflexivity.
      * rewrite Hcalls. cbn [calls after firstn map].
        now rewrite <- app_assoc.
Qed.

End AnySocket.

(** X1.  A send that does not return ends the chunked send: when, of the
    chunks of a payload, the one of index [j] is the first whose send does
    not return, the chunks 0 to [j] have been handed to the socket, in
    order, none of the later ones is, and the call comes to what that send
    came to (its exception).  This holds whatever [i] was left at by an
    earlier call. *)
Theorem X1_failed_send_stops_the_chunks :
  forall (send : nat -> outcome unit) (M : nat) (payload : bytes)
         (w : World) (j : nat),
    0 < M ->
    j < length (writes M payload) ->
    (forall i, i < j -> send (count is_send (calls w) + i) = Ret tt) ->
    send (count is_send (calls w) + j) <> Ret tt ->
    exists w',
      Transmitter.send_bytes send M payload w
      = (w', send (count is_send (calls w) + j)) /\
      calls w' = calls w ++ map Send (firstn (S j) (writes M payload)).
Proof.
  intros send M b w j HM Hj Hok Hfail.
  unfold Transmitter.send_bytes. unfold writes in Hj |- *.
  destruct (Nat.leb_spec (length b) M) as [Hle|Hgt].
  - cbn in Hj. assert (j = 0) by lia. subst j.
    rewrite Nat.add_0_r in *. rewrite data_socket_send_answer.
    eexists. split; reflexivity.
  - assert (Hdiv : floordiv (length b) M = Ret (length b / M)).
    { destruct M; [lia|reflexivity]. }
    remember (length b / M) as q eqn:Eq.
    assert (Hq : 1 <= q).
    { subst q. apply Nat.div_le_lower_bound; lia. }
    erewrite bind_run by (unfold lift; rewrite Hdiv; reflexivity).
    rewrite length_app, length_map, length_seq in Hj.
    destruct (Nat.lt_ge_cases j q) as [Hjq|Hjq].
    + destruct (@for_i_sends_fail send
                  (fun i => slice b (i * M) ((i + 1) * M)) (seq 0 q) w j)
        as [w' [Hrun Hcalls]]; try assumption.
      { now rewrite length_seq. }
      exists w'. split.
      * apply bind_fail_unit; assumption.
      * rewrite Hcalls, firstn_app, length_map, length_seq.
        replace (S j - q) with 0 by lia.
        rewrite firstn_O, app_nil_r, firstn_map, map_map. reflexivity.
    + destruct (Nat.ltb_spec (q * M) (length b)) as [Hrem|Hrem];
        [|cbn in Hj; lia].
      cbn in Hj. assert (j = q) by lia. subst j.
      erewrite bind_run.
      2:{ apply for_i_sends_while. intros i Hi. rewrite length_seq in Hi.
          now apply Hok. }
      destruct q as [|q']; [lia|].
      assert (Hlast : last (seq 0 (S q')) 0 = q').
      { rewrite seq_S. apply last_last. }
      destruct (seq 0 (S q')) as [|k0 ks] eqn:Es; [discriminate|].
      rewrite Hlast. erewrite bind_run by reflexivity.
      replace (q' + 1) with (S q') by lia.
      apply Nat.ltb_lt in Hrem. rewrite Hrem.
      rewrite data_socket_send_answer. cbn [calls after].
      rewrite count_app, count_send_sends.
      assert (Hlen : length (k0 :: ks) = S q').
      { rewrite <- Es. apply length_seq. }
      rewrite Hlen. eexists. split; [reflexivity|].
      cbn [calls after]. rewrite <- app_assoc. f_equal.
      rewrite firstn_all2.
      * rewrite map_app, map_map. reflexivity.
      * rewrite length_app, length_map, Hlen. cbn. lia.
Qed.

Lemma X1_witness :
  exists w',
    Transmitter.send_bytes second_write_breaks 2
      [x01; x02; x03; x04; x05] initial
    = (w', second_write_breaks (count is_send (calls initial) + 1)) /\
    calls w' = calls initial
               ++ map Send (firstn 2 (writes 2 [x01; x02; x03; x04; x05])).
Proof.
  apply (@X1_failed_send_stops_the_chunks
           second_write_breaks 2 [x01; x02; x03; x04; x05] initial 1).
  - lia.
  - cbn. lia.
  - intros i Hi. assert (i = 0) by lia. subst i. reflexivity.
  - discriminate.
Defined.

(** X2.  With a buffer size of zero a non-empty payload is not sent at all:
    the division [len(b) // BUFFER_SIZE] raises ZeroDivisionError before
    the first send. *)
Theorem X2_zero_buffer_size :
  forall (send : nat -> outcome unit) (payload : bytes) (w : World),
    payload <> [] ->
    Transmitter.send_bytes send 0 payload w = (w, Raise ZeroDivisionError).
Proof.
  intros send b w Hb. unfold Transmitter.send_bytes.
  destruct b as [|x b]; [congruence|]. reflexivity.
Qed.

Lemma X2_witness :
  Transmitter.send_bytes (fun _ => Ret tt) 0 [x01] initial
  = (initial, Raise ZeroDivisionError).
Proof.
  apply (@X2_zero_buffer_size (fun _ => Ret tt) [x01] initial). discriminate.
Defined.

(** ** One pass of the loop body: edge cases *)

Lemma T_no_samples (values : list (list float)) :
  Forall (fun v => v = []) values ->
  numpy.T (map (map float32) values) = [].
Proof.
  intros H. unfold numpy.T.
  destruct H as [|v values Hv Hrest]; [reflexivity|]. subst v. reflexivity.
Qed.

(** X3.  A fetch without new samples sends nothing, not even an empty
    write: when every requested vector is empty the testbench pass returns
    with the log as it was, for every socket and buffer size; so does the
    EdgeRL pass as soon as one of its four vectors is empty, whatever the
    others hold. *)
Theorem X3_empty_fetch_sends_nothing :
  forall (send : nat -> outcome unit) (M : nat) (r : CaptureResult) (w : World),
    (forall (variables : list string) (values : list (list float)),
        holds r route_testbench_data.slaveTask variables values ->
        Forall (fun v => v = []) values ->
        route_testbench_data.process send variables M r w = (w, Ret tt)) /\
    (forall a b c d : list float,
        holds r EdgeRL_DataAcquisition.slaveTask
              [EdgeRL_DataAcquisition.stateCurrentId;
               EdgeRL_DataAcquisition.stateCurrentIq;
               EdgeRL_DataAcquisition.trajectoryIdx;
               EdgeRL_DataAcquisition.trajectoryReset] [a; b; c; d] ->
        a = [] \/ b = [] \/ c = [] \/ d = [] ->
        EdgeRL_DataAcquisition.process send M r w = (w, Ret tt)).
Proof.
  intros send M r w. split.
  - intros variables values Hh Hempty.
    unfold route_testbench_data.process.
    erewrite bind_run.
    2:{ apply fetched_signals_arr_holds; [exact Hh|].
        apply (@homogeneous_Forall 0).
        eapply Forall_impl; [|exact Hempty]. now intros v ->. }
    now rewrite T_no_samples.
  - intros a b c d Hh Hempty.
    rewrite (edgerl_process_zip send M w Hh).
    assert (Hz : zip4 a b c d = []).
    { destruct Hempty as [-> | [-> | [-> | ->]]]; [reflexivity|..].
      - destruct a; reflexivity.
      - destruct a, b; reflexivity.
      - destruct a, b, c; reflexivity. }
    now rewrite Hz.
Qed.

Lemma X3_witness :
  route_testbench_data.process (fun _ => Raise ZeroDivisionError)
    ["I_d"; "I_q"]%string 0
    (capture_result route_testbench_data.slaveTask
       [("I_d", []); ("I_q", [])]%string) initial
  = (initial, Ret tt).
Proof.
  refine (proj1 (@X3_empty_fetch_sends_nothing
                   (fun _ => Raise ZeroDivisionError) 0
                   (capture_result route_testbench_data.slaveTask
                      [("I_d", []); ("I_q", [])]%string) initial)
                ["I_d"; "I_q"]%string [[]; []] _ _).
  - repeat constructor.
  - repeat constructor.
Defined.

Lemma length_writes_records (M C : nat) (ps : list bytes) :
  0 < M -> 0 < C ->
  Forall (fun p : bytes => length p = C) ps ->
  length (flat_map (writes M) ps) = length ps * Transmitter.ceil_div C M.
Proof.
  intros HM HC. induction 1 as [|p ps Hp Hps IH]; [reflexivity|].
  cbn [flat_map length]. rewrite length_app, IH, writes_count.
  - rewrite Hp. lia.
  - exact HM.
  - destruct p; [cbn in Hp; lia|discriminate].
Qed.

(** X4.  Records larger than the buffer.  On a socket that takes every
    write, for N samples of C >= 1 variables and a buffer size M > 0, the
    testbench pass hands the socket the chunks of the first row, then those
    of the second, and so on: every row is cut on its own, so no write holds
    bytes of two records, and the pass makes N * ceil(4 * C / M) sends. *)
Theorem X4_rows_are_chunked_one_by_one :
  forall (send : nat -> outcome unit) (M : nat) (r : CaptureResult)
         (variables : list string) (values : list (list float)) (N : nat)
         (w : World),
    accepts send -> 0 < M -> variables <> [] ->
    holds r route_testbench_data.slaveTask variables values ->
    Forall (fun v => length v = N) values ->
    exists w',
      route_testbench_data.process send variables M r w = (w', Ret tt) /\
      calls w' = calls w
                 ++ map Send
                      (flat_map (fun row => writes M (numpy.tobytes row))
                                (numpy.T (map (map float32) values))) /\
      length (flat_map (fun row => writes M (numpy.tobytes row))
                       (numpy.T (map (map float32) values)))
      = N * Transmitter.ceil_div (4 * length variables) M.
Proof.
  intros send M r variables values N w Hs HM Hne Hh Hall.
  pose proof (homogeneous_Forall Hall) as Hhom.
  pose proof (Forall2_length Hh) as Hlen.
  destruct (testbench_process Hs HM w Hh Hhom) as [i' Hrun].
  assert (Hflat : forall rows : list (list f32),
             flat_map (writes M) (map numpy.tobytes rows)
             = flat_map (fun row => writes M (numpy.tobytes row)) rows).
  { intros rows. induction rows as [|row rows IH]; [reflexivity|].
    cbn [map flat_map]. now rewrite IH. }
  exists (after w (map Send (flat_map (writes M)
                        (map numpy.tobytes
                             (numpy.T (map (map float32) values))))) i').
  split; [exact Hrun|]. split; [cbn [calls after]; now rewrite Hflat|].
  rewrite <- Hflat.
  assert (Hvalues : values <> []).
  { destruct values; [|discriminate]. destruct variables; [congruence|].
    cbn in Hlen. lia. }
  rewrite (T_entries Hvalues Hall).
  rewrite (@length_writes_records M (4 * length variables)).
  - now rewrite !length_map, length_seq.
  - exact HM.
  - destruct variables; [congruence|cbn; lia].
  - apply Forall_forall. intros p Hp. apply in_map_iff in Hp.
    destruct Hp as [row [<- Hrow]]. apply in_map_iff in Hrow.
    destruct Hrow as [k [<- _]]. now rewrite length_tobytes, length_map, Hlen.
Qed.

Lemma X4_witness :
  exists w',
    route_testbench_data.process (fun _ => Ret tt) ["I_d"; "I_q"]%string 3
      (capture_result route_testbench_data.slaveTask
         [("I_d", [1%float; 2%float]); ("I_q", [3%float; 4%float])]%string)
      initial = (w', Ret tt) /\
    calls w' = calls initial
               ++ map Send
                    (flat_map (fun row => writes 3 (numpy.tobytes row))
                       (numpy.T (map (map float32)
                                     [[1%float; 2%float]; [3%float; 4%float]]))) /\
    length (flat_map (fun row => writes 3 (numpy.tobytes row))
              (numpy.T (map (map float32)
                            [[1%float; 2%float]; [3%float; 4%float]])))
    = 2 * Transmitter.ceil_div (4 * length ["I_d"; "I_q"]%string) 3.
Proof.
  apply (@X4_rows_are_chunked_one_by_one
           (fun _ => Ret tt) 3
           (capture_result route_testbench_data.slaveTask
              [("I_d", [1%float; 2%float]); ("I_q", [3%float; 4%float])]%string)
           ["I_d"; "I_q"]%string
           [[1%float; 2%float]; [3%float; 4%float]] 2 initial).
  - intros n. reflexivity.
  - lia.
  - discriminate.
  - repeat constructor.
  - repeat constructor.
Defined.


(** X6.  A value too large for float32 in the EdgeRL pass.
    [struct.pack('f', val)] refuses no value: a double of magnitude 2^128
    or more (a mantissa of [d] binary digits and an exponent [e] with
    [d + e > 128]) is packed as the infinity of its sign, the bytes
    00 00 80 7f or 00 00 80 ff, the same four bytes it has in a row of the
    testbench array.  So no value stops the batch: on a socket that takes
    every write, with a buffer of at least 16 bytes, the pass returns after
    one send per tuple of the zip, whatever the values are. *)
Theorem X6_overflow_is_sent_as_infinity :
  forall (val : float) (s : bool) (m : positive) (e : Z),
    Prim2SF val = S754_finite s m e ->
    (128 < Zpos (digits2_pos m) + e)%Z ->
    struct.pack_f val = Ret [x00; x00; x80; if s then xff else x7f] /\
    numpy.tobytes [float32 val] = [x00; x00; x80; if s then xff else x7f] /\
    (forall (send : nat -> outcome unit) (M : nat) (r : CaptureResult)
            (a b c d : list float) (w : World),
        accepts send -> 16 <= M ->
        holds r EdgeRL_DataAcquisition.slaveTask
              [EdgeRL_DataAcquisition.stateCurrentId;
               EdgeRL_DataAcquisition.stateCurrentIq;
               EdgeRL_DataAcquisition.trajectoryIdx;
               EdgeRL_DataAcquisition.trajectoryReset] [a; b; c; d] ->
        exists w',
          EdgeRL_DataAcquisition.process send M r w = (w', Ret tt) /\
          calls w'
          = calls w
            ++ map Send (map (fun date => numpy.tobytes (map float32 date))
                             (zip4 a b c d))).
Proof.
  intros val s m e Hval Hbig.
  pose proof (float32_overflow val Hval Hbig) as Hinf.
  split; [|split].
  - change (struct.pack_f val) with (Ret (le_bytes (float32 val))).
    rewrite Hinf. destruct s; reflexivity.
  - change (numpy.tobytes [float32 val]) with (le_bytes (float32 val) ++ []).
    rewrite Hinf, app_nil_r. destruct s; reflexivity.
  - intros send M r a b c d w Hs Hfit Hh.
    destruct (@edgerl_pass_runs send M r a b c d w Hs Hfit Hh) as [i' Hrun].
    eexists. split; [exact Hrun|reflexivity].
Qed.

Lemma X6_witness :
  struct.pack_f 0x1p+128%float
  = Ret [x00; x00; x80; if false then xff else x7f] /\
  numpy.tobytes [float32 0x1p+128%float]
  = [x00; x00; x80; if false then xff else x7f].
Proof.
  destruct (@X6_overflow_is_sent_as_infinity
              0x1p+128%float false 4503599627370496%positive 76%Z)
    as [Hpack [Hrow _]].
  - reflexivity.
  - reflexivity.
  - split; [exact Hpack|exact Hrow].
Defined.

(** X18.  Vectors of different lengths in the testbench pass.  Where the
    EdgeRL pass zips its vectors, the testbench pass builds one array of
    them, and [np.array] with a numeric dtype refuses sequences that are
    not all of one length: the pass raises a ValueError before anything is
    sent, for every socket and buffer size, and the log is as it was. *)
Theorem X18_testbench_refuses_uneven_vectors :
  forall (send : nat -> outcome unit) (M : nat) (w : World)
         (r : CaptureResult) (variables : list string)
         (values : list (list float)),
    holds r route_testbench_data.slaveTask variables values ->
    (exists u v, In u values /\ In v values /\ length u <> length v) ->
    exists message : string,
      route_testbench_data.process send variables M r w
      = (w, Raise (Exc "ValueError" message)).
Proof.
  intros send M w r variables values Hh Hragged.
  eexists. unfold route_testbench_data.process.
  apply bind_raise. eapply fetched_signals_arr_ragged; [exact Hh|].
  now apply homogeneous_ragged.
Qed.

Lemma X18_witness :
  exists message : string,
    route_testbench_data.process (fun _ => Ret tt) ["A"; "B"]%string 988
      (capture_result route_testbench_data.slaveTask
         [("A", [1%float; 2%float; 3%float; 4%float; 5%float]);
          ("B", [1%float; 2%float; 3%float; 4%float])]%string)
      initial
    = (initial, Raise (Exc "ValueError" message)).
Proof.
  apply (@X18_testbench_refuses_uneven_vectors
           (fun _ => Ret tt) 988 initial
           (capture_result route_testbench_data.slaveTask
              [("A", [1%float; 2%float; 3%float; 4%float; 5%float]);
               ("B", [1%float; 2%float; 3%float; 4%float])]%string)
           ["A"; "B"]%string
           [[1%float; 2%float; 3%float; 4%float; 5%float];
            [1%float; 2%float; 3%float; 4%float]]).
  - repeat constructor.
  - exists [1%float; 2%float; 3%float; 4%float; 5%float],
           [1%float; 2%float; 3%float; 4%float].
    split; [now left|]. split; [right; now left|]. discriminate.
Defined.

(** ** Invariants of a whole run *)

Lemma triple_ret (A : Type) (a : A) (P E : World -> Prop) :
  triple P (ret a) P E.
Proof. intros w w' o H HP. injection H as <- <-. exact HP. Qed.

Lemma triple_raise (A : Type) (e : exception) (P N E : World -> Prop) :
  (forall w, P w -> E w) -> triple P (@raise A e) N E.
Proof. intros HE w w' o H HP. injection H as <- <-. now apply HE. Qed.

Lemma triple_lift (A : Type) (o : outcome A) (P E : World -> Prop) :
  (forall w, P w -> E w) -> triple P (lift o) P E.
Proof.
  intros HE w w' o' H HP. unfold lift in H. injection H as <- <-.
  destruct o; auto.
Qed.

Lemma triple_bind (A B : Type) (m : IO A) (k : A -> IO B)
      (P Q R E : World -> Prop) :
  triple P m Q E -> (forall a, triple Q (k a) R E) -> triple P (bind m k) R E.
Proof.
  intros Hm Hk w w' o H HP. unfold bind in H.
  destruct (m w) as [w1 [a|e|]] eqn:Em.
  - exact (Hk a _ _ _ H (Hm _ _ _ Em HP)).
  - injection H as <- <-. exact (Hm _ _ _ Em HP).
  - injection H as <- <-. exact (Hm _ _ _ Em HP).
Qed.

Lemma triple_call (A : Type) (c : Call) (o : outcome A)
      (P N E : World -> Prop) :
  (forall w, P w -> N (log c w)) -> (forall w, P w -> E (log c w)) ->
  triple P (call c o) N E.
Proof.
  intros HN HE w w' o' H HP. unfold call in H. injection H as <- <-.
  destruct o; auto.
Qed.

Lemma triple_if (A : Type) (f : World -> bool) (m1 m2 : IO A)
      (P N E : World -> Prop) :
  triple P m1 N E -> triple P m2 N E ->
  triple P (fun w => if f w then m1 w else m2 w) N E.
Proof.
  intros H1 H2 w w' o H HP. destruct (f w); [exact (H1 _ _ _ H HP)|].
  exact (H2 _ _ _ H HP).
Qed.

Lemma triple_try_finally (A : Type) (body : IO A) (handler : IO unit)
      (P Q E : World -> Prop) :
  triple P body Q E -> triple Q handler Q E -> triple E handler E E ->
  triple P (try_finally body handler) Q E.
Proof.
  intros Hb Hq He w w' o H HP. unfold try_finally in H.
  destruct (body w) as [w1 [a|e|]] eqn:Eb; pose proof (Hb _ _ _ Eb HP) as H1;
    cbn in H1.
  - destruct (handler w1) as [w2 [u|e'|]] eqn:Eh;
      pose proof (Hq _ _ _ Eh H1) as H2; injection H as <- <-; exact H2.
  - destruct (handler w1) as [w2 [u|e'|]] eqn:Eh;
      pose proof (He _ _ _ Eh H1) as H2; injection H as <- <-; exact H2.
  - injection H as <- <-. exact H1.
Qed.

Lemma triple_weaken (A : Type) (m : IO A) (P N E E' : World -> Prop) :
  (forall w, E w -> E' w) -> triple P m N E -> triple P m N E'.
Proof.
  intros HE Hm w w' o H HP. pose proof (Hm _ _ _ H HP) as H1.
  destruct o; auto.
Qed.

Lemma count_log (p : Call -> bool) (c : Call) (cs : list Call) :
  count p (cs ++ [c]) = count p cs + (if p c then 1 else 0).
Proof.
  rewrite count_app. unfold count. cbn [filter]. destruct (p c); reflexivity.
Qed.

Section Pass.

Variables phi phiE : list Call -> option nat -> Prop.
Hypothesis HE : forall cs n, phi cs n -> phiE cs n.
Variable send : nat -> outcome unit.
Hypothesis Hsend :
  forall b, triple (on phi) (Transmitter.data_socket_send send b)
                   (on phi) (on phiE).

Lemma on_E (w : World) : on phi w -> on phiE w.
Proof. apply HE. Qed.

Lemma triple_set_i (k : nat) : triple (on phi) (set_i k) (on phi) (on phiE).
Proof. intros w w' o H HP. injection H as <- <-. exact HP. Qed.

Lemma triple_get_i : triple (on phi) get_i (on phi) (on phiE).
Proof.
  intros w w' o H HP. unfold get_i in H.
  destruct (loop_i w); injection H as <- <-; [exact HP|now apply on_E].
Qed.

Lemma triple_for_i (body : nat -> IO unit) (ks : list nat) :
  (forall k, triple (on phi) (body k) (on phi) (on phiE)) ->
  triple (on phi) (for_i ks body) (on phi) (on phiE).
Proof.
  intros Hb. induction ks as [|k ks IH]; cbn [for_i].
  - apply triple_ret.
  - eapply triple_bind; [apply triple_set_i|]. intros _.
    eapply triple_bind; [apply Hb|]. intros _. exact IH.
Qed.

Lemma triple_for_each (A : Type) (body : A -> IO unit) (xs : list A) :
  (forall x, triple (on phi) (body x) (on phi) (on phiE)) ->
  triple (on phi) (for_each xs body) (on phi) (on phiE).
Proof.
  intros Hb. induction xs as [|x xs IH]; cbn [for_each].
  - apply triple_ret.
  - eapply triple_bind; [apply Hb|]. intros _. exact IH.
Qed.

Lemma triple_list_comp (A B : Type) (f : A -> IO B) (xs : list A) :
  (forall x, triple (on phi) (f x) (on phi) (on phiE)) ->
  triple (on phi) (list_comp f xs) (on phi) (on phiE).
Proof.
  intros Hf. induction xs as [|x xs IH]; cbn [list_comp].
  - apply triple_ret.
  - eapply triple_bind; [apply Hf|]. intros y.
    eapply triple_bind; [exact IH|]. intros ys. apply triple_ret.
Qed.

Lemma triple_send_bytes (M : nat) (b : bytes) :
  triple (on phi) (Transmitter.send_bytes send M b) (on phi) (on phiE).
Proof.
  unfold Transmitter.send_bytes.
  destruct (length b <=? M); [apply Hsend|].
  eapply triple_bind; [apply triple_lift, on_E|]. intros q.
  eapply triple_bind; [apply triple_for_i; intros k; apply Hsend|].
  intros _. eapply triple_bind; [apply triple_get_i|]. intros i.
  destruct ((i + 1) * M <? length b); [apply Hsend|apply triple_ret].
Qed.

Lemma triple_testbench_process (variables : list string) (M : nat)
      (r : CaptureResult) :
  triple (on phi) (route_testbench_data.process send variables M r)
         (on phi) (on phiE).
Proof.
  unfold route_testbench_data.process, route_testbench_data.fetched_signals_arr.
  eapply triple_bind.
  - eapply triple_bind.
    + apply triple_list_comp. intros x.
      unfold route_testbench_data.extract_value.
      eapply triple_bind; [apply triple_lift, on_E|]. intros v.
      apply triple_ret.
    + intros values. eapply triple_bind; [apply triple_lift, on_E|].
      intros a. apply triple_ret.
  - intros arr. apply triple_for_each. intros row. apply triple_send_bytes.
Qed.

Lemma triple_signal_values (r : CaptureResult) (variable : string) :
  triple (on phi) (EdgeRL_DataAcquisition.signal_values r variable)
         (on phi) (on phiE).
Proof.
  unfold EdgeRL_DataAcquisition.signal_values.
  eapply triple_bind; [apply triple_lift, on_E|]. intros v. apply triple_ret.
Qed.

Lemma triple_edgerl_process (M : nat) (r : CaptureResult) :
  triple (on phi) (EdgeRL_DataAcquisition.process send M r) (on phi) (on phiE).
Proof.
  unfold EdgeRL_DataAcquisition.process.
  repeat (eapply triple_bind; [apply triple_signal_values|]; intros ?).
  apply triple_for_each. intros date.
  eapply triple_bind; [apply triple_lift, on_E|]. intros b.
  apply triple_send_bytes.
Qed.

End Pass.

Section Run.

Variable script : Script.
Variable pl : Platform.

(** [phi0] holds until [capture_count] is assigned, [phiI] from then on
    between the passes and [phiJ] within a pass, after its fetch; [phiE]
    holds where the run stops. *)
Variables phi0 phiI phiJ phiE : list Call -> option nat -> Prop.
Hypothesis H0E : forall cs n, phi0 cs n -> phiE cs n.
Hypothesis HIE : forall cs n, phiI cs n -> phiE cs n.
Hypothesis HJE : forall cs n, phiJ cs n -> phiE cs n.
Hypothesis Hn0 :
  forall c cs n, neutral c = true -> phi0 cs n -> phi0 (cs ++ [c]) n.
Hypothesis HnI :
  forall c cs n, neutral c = true -> phiI cs n -> phiI (cs ++ [c]) n.
Hypothesis HnE :
  forall c cs n, neutral c = true -> phiE cs n -> phiE (cs ++ [c]) n.
Hypothesis Hfetch :
  triple (on phiI) (Session.DemoCapture_Fetch pl) (on phiJ) (on phiE).
Hypothesis Hsend :
  forall b, triple (on phiJ) (Transmitter.data_socket_send (send pl) b)
                   (on phiJ) (on phiE).
Hypothesis Hzero : forall cs n, phi0 cs n -> phiI cs (Some 0).
Hypothesis Hincr : forall cs k, phiJ cs (Some k) -> phiI cs (Some (k + 1)).

Lemma triple_neutral_0 (A : Type) (c : Call) (o : outcome A) :
  neutral c = true -> triple (on phi0) (call c o) (on phi0) (on phiE).
Proof.
  intros Hc. apply triple_call; intros w HP; unfold on in *; cbn.
  - now apply Hn0.
  - now apply HnE, H0E.
Qed.

Lemma triple_neutral (A : Type) (c : Call) (o : outcome A) :
  neutral c = true -> triple (on phiI) (call c o) (on phiI) (on phiE).
Proof.
  intros Hc. apply triple_call; intros w HP; unfold on in *; cbn.
  - now apply HnI.
  - now apply HnE, HIE.
Qed.

Lemma triple_neutral_E (A : Type) (c : Call) (o : outcome A) :
  neutral c = true -> triple (on phiE) (call c o) (on phiE) (on phiE).
Proof.
  intros Hc. apply triple_call; intros w HP; unfold on in *; cbn;
    now apply HnE.
Qed.

Lemma triple_flags (phi : list Call -> option nat -> Prop) (E : World -> Prop)
      (v : bool) :
  triple (on phi) (set_DemoCapture v) (on phi) E /\
  triple (on phi) (set_DemoMAPort v) (on phi) E.
Proof.
  split; intros w w' o H HP; injection H as <- <-; exact HP.
Qed.

Lemma triple_wait (reads : list (outcome CaptureState)) :
  triple (on phi0) (Session.wait_until_running reads) (on phi0) (on phiE).
Proof.
  induction reads as [|r rest IH]; cbn [Session.wait_until_running].
  - apply triple_lift. intros w. apply H0E.
  - eapply triple_bind; [apply triple_lift; intros w; apply H0E|].
    intros state.
    destruct (negb (state_eqb state eRUNNING)); [|apply triple_ret].
    eapply triple_bind; [now apply triple_neutral_0|]. intros _. exact IH.
Qed.

Lemma triple_set_count :
  triple (on phi0) (set_capture_count 0) (on phiI) (on phiE).
Proof.
  intros w w' o H HP. injection H as <- <-. unfold on in *. cbn.
  exact (Hzero HP).
Qed.

Lemma triple_incr :
  triple (on phiJ) incr_capture_count (on phiI) (on phiE).
Proof.
  intros w w' o H HP. unfold incr_capture_count in H. unfold on in *.
  destruct (capture_count w) as [k|] eqn:Ek.
  - injection H as <- <-. cbn. now apply Hincr.
  - injection H as <- <-. rewrite Ek. now apply HJE.
Qed.

Lemma triple_session_process (r : CaptureResult) :
  triple (on phiJ) (Session.process script pl r) (on phiJ) (on phiE).
Proof.
  unfold Session.process. destruct script;
    [apply triple_testbench_process|apply triple_edgerl_process]; assumption.
Qed.

Lemma triple_fetch_loop (reads : list (outcome CaptureState)) :
  triple (on phiI) (Session.fetch_until_finished script pl reads)
         (on phiI) (on phiE).
Proof.
  induction reads as [|r rest IH]; cbn [Session.fetch_until_finished].
  - apply triple_lift. intros w. apply HIE.
  - eapply triple_bind; [apply triple_lift; intros w; apply HIE|].
    intros state.
    destruct (negb (state_eqb state eFINISHED)); [|apply triple_ret].
    eapply triple_bind; [exact Hfetch|]. intros res.
    eapply triple_bind; [apply triple_session_process|]. intros _.
    eapply triple_bind; [apply triple_incr|]. intros _. exact IH.
Qed.

Lemma triple_setup :
  triple (on phi0) (Session.setup script pl) (on phi0) (on phiE).
Proof.
  unfold Session.setup.
  assert (HE : forall w, on phi0 w -> on phiE w) by (intros w; apply H0E).
  destruct (bootstrap pl) as [e|e|e|].
  - now apply triple_raise.
  - eapply triple_bind; [apply triple_flags|]. intros _. now apply triple_raise.
  - eapply triple_bind; [apply triple_flags|]. intros _.
    eapply triple_bind; [apply triple_flags|]. intros _. now apply triple_raise.
  - eapply triple_bind; [apply triple_flags|]. intros _.
    eapply triple_bind; [apply triple_flags|]. intros _.
    eapply triple_bind; [now apply triple_neutral_0|]. intros _.
    eapply triple_bind; [|intros _; now apply triple_neutral_0].
    destruct script; [apply triple_ret|now apply triple_neutral_0].
Qed.

Lemma triple_body :
  triple (on phi0) (Session.body script pl) (on phiI) (on phiE).
Proof.
  unfold Session.body.
  eapply triple_bind; [apply triple_setup|]. intros _.
  eapply triple_bind; [apply triple_wait|]. intros rest.
  eapply triple_bind; [apply triple_set_count|]. intros _.
  eapply triple_bind; [apply triple_fetch_loop|]. intros _.
  eapply triple_bind; [now apply triple_neutral|]. intros _.
  now apply triple_neutral.
Qed.

Lemma triple_dispose (phi : list Call -> option nat -> Prop) :
  (forall c cs n, neutral c = true -> phi cs n -> phi (cs ++ [c]) n) ->
  triple (on phi) (Session.dispose pl) (on phi) (on phi).
Proof.
  intros Hn. unfold Session.dispose.
  assert (Hcall : forall c (o : outcome unit), neutral c = true ->
                    triple (on phi) (call c o) (on phi) (on phi)).
  { intros c o Hc. apply triple_call; intros w HP; unfold on in *; cbn;
      now apply Hn. }
  eapply triple_bind; [|intros _]; apply triple_if; try apply triple_ret;
    (eapply triple_bind; [now apply Hcall|]; intros _; apply triple_flags).
Qed.

Lemma triple_main :
  triple (on phi0) (Session.main script pl) (on phiI) (on phiE).
Proof.
  unfold Session.main. apply triple_try_finally.
  - apply triple_body.
  - eapply triple_weaken; [|apply (@triple_dispose phiI HnI)].
    intros w. apply HIE.
  - apply (@triple_dispose phiE HnE).
Qed.

End Run.

Lemma neutral_not_send (c : Call) : neutral c = true -> is_send c = false.
Proof. destruct c; cbn; congruence. Qed.

Lemma neutral_not_fetch (c : Call) : neutral c = true -> is_fetch c = false.
Proof. destruct c; cbn; congruence. Qed.

(** X7.  No retry after a failed send.  If the write number [n] of the run
    (counting from 0) does not return, the run makes no write after it:
    whatever the script, the state readings, the batches and the answers of
    the other calls, the log of the whole run holds at most [n + 1] sends. *)
Theorem X7_no_send_after_a_failed_send :
  forall (script : Script) (pl : Platform) (n : nat),
    send pl n <> Ret tt ->
    count is_send (calls (fst (Session.main script pl initial))) <= n + 1.
Proof.
  intros script pl n Hfail.
  destruct (Session.main script pl initial) as [w' o] eqn:Em. cbn [fst].
  unshelve epose proof
    (@triple_main script pl
       (fun cs _ => count is_send cs <= n)
       (fun cs _ => count is_send cs <= n)
       (fun cs _ => count is_send cs <= n)
       (fun cs _ => count is_send cs <= n + 1)
       _ _ _ _ _ _ _ _ _ _ initial w' o Em _) as Hgoal; unfold on; cbv beta.
  - intros cs k H. lia.
  - intros cs k H. lia.
  - intros cs k H. lia.
  - intros c cs k Hc H. rewrite count_log, (neutral_not_send _ Hc). lia.
  - intros c cs k Hc H. rewrite count_log, (neutral_not_send _ Hc). lia.
  - intros c cs k Hc H. rewrite count_log, (neutral_not_send _ Hc). lia.
  - intros w w1 o1 H HP. unfold Session.DemoCapture_Fetch, call in H.
    injection H as <- <-. cbn [calls log capture_count] in *.
    rewrite count_log. cbn [is_send].
    destruct (fetch pl _); lia.
  - intros b w w1 o1 H HP. rewrite data_socket_send_answer in H.
    injection H as <- <-. cbn [calls after capture_count] in *.
    rewrite count_log. cbn [is_send].
    destruct (Nat.eq_dec (count is_send (calls w)) n) as [Hn|Hn].
    + rewrite Hn. destruct (send pl n) as [[]|e|]; [congruence|lia..].
    + destruct (send pl (count is_send (calls w))); lia.
  - intros cs k H. exact H.
  - intros cs k H. exact H.
  - cbn. lia.
  - unfold on in Hgoal. destruct o; lia.
Qed.

Lemma X7_witness :
  count is_send
    (calls (fst (Session.main Testbench broken_socket_platform initial)))
  <= 1 + 1.
Proof.
  apply (@X7_no_send_after_a_failed_send Testbench broken_socket_platform 1).
  discriminate.
Defined.

(** X8.  No fetch after a failed fetch.  If the fetch number [n] of the run
    does not return, the run makes no fetch after it: the log of the whole
    run holds at most [n + 1] fetches. *)
Theorem X8_no_fetch_after_a_failed_fetch :
  forall (script : Script) (pl : Platform) (n : nat),
    (forall r, fetch pl n <> Ret r) ->
    count is_fetch (calls (fst (Session.main script pl initial))) <= n + 1.
Proof.
  intros script pl n Hfail.
  destruct (Session.main script pl initial) as [w' o] eqn:Em. cbn [fst].
  unshelve epose proof
    (@triple_main script pl
       (fun cs _ => count is_fetch cs <= n)
       (fun cs _ => count is_fetch cs <= n)
       (fun cs _ => count is_fetch cs <= n)
       (fun cs _ => count is_fetch cs <= n + 1)
       _ _ _ _ _ _ _ _ _ _ initial w' o Em _) as Hgoal; unfold on; cbv beta.
  - intros cs k H. lia.
  - intros cs k H. lia.
  - intros cs k H. lia.
  - intros c cs k Hc H. rewrite count_log, (neutral_not_fetch _ Hc). lia.
  - intros c cs k Hc H. rewrite count_log, (neutral_not_fetch _ Hc). lia.
  - intros c cs k Hc H. rewrite count_log, (neutral_not_fetch _ Hc). lia.
  - intros w w1 o1 H HP. unfold Session.DemoCapture_Fetch, call in H.
    injection H as <- <-. cbn [calls log capture_count] in *.
    rewrite count_log. cbn [is_fetch].
    destruct (Nat.eq_dec (count is_fetch (calls w)) n) as [Hn|Hn].
    + rewrite Hn. destruct (fetch pl n) as [r|e|];
        [exfalso; exact (Hfail r eq_refl)|lia..].
    + destruct (fetch pl (count is_fetch (calls w))); lia.
  - intros b w w1 o1 H HP. rewrite data_socket_send_answer in H.
    injection H as <- <-. cbn [calls after capture_count] in *.
    rewrite count_log. cbn [is_fetch]. destruct (send pl _); lia.
  - intros cs k H. exact H.
  - intros cs k H. exact H.
  - cbn. lia.
  - unfold on in Hgoal. destruct o; lia.
Qed.

Lemma X8_witness :
  count is_fetch
    (calls (fst (Session.main Testbench failing_platform initial)))
  <= 0 + 1.
Proof.
  apply (@X8_no_fetch_after_a_failed_fetch Testbench failing_platform 0).
  discriminate.
Defined.

(** X9.  [capture_count] counts the completed passes of the fetch loop.
    The name is bound by [capture_count = 0] once the wait loop is over.  A
    run that ends while it is unbound (in the set-up or in the wait loop)
    has made no fetch and has not returned.  In every other run its value
    at the end is the number of fetches made, or one less (a pass that did
    not complete); it is exactly the number of fetches when the run
    returns. *)
Theorem X9_capture_count_counts_passes :
  forall (script : Script) (pl : Platform),
    match capture_count (fst (Session.main script pl initial)) with
    | None =>
        count is_fetch (calls (fst (Session.main script pl initial))) = 0 /\
        snd (Session.main script pl initial) <> Ret tt
    | Some k =>
        k <= count is_fetch (calls (fst (Session.main script pl initial)))
          <= k + 1 /\
        (snd (Session.main script pl initial) = Ret tt ->
         count is_fetch (calls (fst (Session.main script pl initial))) = k)
    end.
Proof.
  intros script pl.
  destruct (Session.main script pl initial) as [w' o] eqn:Em. cbn [fst snd].
  unshelve epose proof
    (@triple_main script pl
       (fun cs n => n = None /\ count is_fetch cs = 0)
       (fun cs n => n = Some (count is_fetch cs))
       (fun cs n => exists k, n = Some k /\ count is_fetch cs = k + 1)
       (fun cs n => match n with
                    | None => count is_fetch cs = 0
                    | Some k => k <= count is_fetch cs <= k + 1
                    end)
       _ _ _ _ _ _ _ _ _ _ initial w' o Em _) as Hgoal; unfold on; cbv beta.
  - intros cs n [-> H]. exact H.
  - intros cs n ->. lia.
  - intros cs n [k [-> H]]. lia.
  - intros c cs n Hc [-> H]. split; [reflexivity|].
    rewrite count_log, (neutral_not_fetch _ Hc). lia.
  - intros c cs n Hc ->. rewrite count_log, (neutral_not_fetch _ Hc).
    f_equal. lia.
  - intros c cs n Hc H. rewrite count_log, (neutral_not_fetch _ Hc).
    destruct n; lia.
  - intros w w1 o1 H HP. unfold Session.DemoCapture_Fetch, call in H.
    injection H as <- <-. cbn [calls log capture_count] in *.
    rewrite count_log. cbn [is_fetch]. rewrite HP.
    destruct (fetch pl _); [exists (count is_fetch (calls w)); split;
                             [reflexivity|lia]|lia..].
  - intros b w w1 o1 H HP. rewrite data_socket_send_answer in H.
    injection H as <- <-. cbn [calls after capture_count] in *.
    rewrite count_log. cbn [is_fetch]. destruct HP as [k [-> Hk]].
    destruct (send pl _); [exists k; split; [reflexivity|lia]|lia..].
  - intros cs n [-> H]. now rewrite H.
  - intros cs k [k' [E H]]. injection E as <-. f_equal. lia.
  - split; reflexivity.
  - unfold on in Hgoal.
    destruct o as [[]|e|]; cbn in Hgoal.
    + rewrite Hgoal. split; [lia|reflexivity].
    + destruct (capture_count w'); [split; [exact Hgoal|discriminate]|].
      split; [exact Hgoal|discriminate].
    + destruct (capture_count w'); [split; [exact Hgoal|discriminate]|].
      split; [exact Hgoal|discriminate].
Qed.

(** ** The two loops on other state readings *)

Lemma wait_pending (states : list CaptureState) :
  Forall (fun s => s <> eRUNNING) states ->
  forall w, exists w',
    Session.wait_until_running (map (@Ret CaptureState) states) w
    = (w', Pending) /\
    calls w' = calls w ++ repeat (Sleep 20) (length states).
Proof.
  induction 1 as [|s states Hs Hrest IH]; intros w;
    cbn [map Session.wait_until_running length repeat].
  - exists w. split; [reflexivity|now rewrite app_nil_r].
  - erewrite bind_run by reflexivity.
    assert (Hne : negb (state_eqb s eRUNNING) = true)
      by (destruct s; try reflexivity; congruence).
    rewrite Hne. erewrite bind_run by reflexivity.
    destruct (IH (log (Sleep 20) w)) as [w' [Hrun Hcalls]].
    exists w'. split; [exact Hrun|].
    rewrite Hcalls. cbn [calls log]. now rewrite <- app_assoc.
Qed.

(** X10.  Nothing happens before Running is read.  As long as the state
    readings show anything but Running (Finished included: a capture that
    ends before the wait loop has seen it running), the script stays in the
    wait loop: after the set-up it only sleeps, so there is no fetch, no
    send, no close and no dispose, and the run has not come back when the
    readings end. *)
Theorem X10_waits_until_running_is_read :
  forall (script : Script) (pl : Platform) (states : list CaptureState),
    bootstrap pl = Boots -> connect pl = Ret tt ->
    state_reads pl = map (@Ret CaptureState) states ->
    Forall (fun s => s <> eRUNNING) states ->
    exists w',
      Session.main script pl initial = (w', Pending) /\
      calls w' = setup_calls script ++ repeat (Sleep 20) (length states).
Proof.
  intros script pl states Hb Hc Hreads Hstates.
  destruct (@setup_boots script pl Hb Hc) as [w1 [H1 [C1 _]]].
  destruct (wait_pending Hstates w1) as [w2 [H2 C2]].
  exists w2. unfold Session.main, try_finally, Session.body.
  erewrite bind_run by exact H1.
  erewrite bind_pending by (rewrite Hreads; exact H2).
  split; [reflexivity|]. now rewrite C2, C1.
Qed.

Lemma X10_witness :
  exists w',
    Session.main Testbench
      {| bootstrap := Boots; connect := Ret tt;
         state_reads := map (@Ret CaptureState) [Idle; Armed; eFINISHED; eFINISHED];
         fetch := fun _ => Ret sample_batch;
         send := fun _ => Ret tt;
         dispose_capture := Ret tt; dispose_port := Ret tt |} initial
    = (w', Pending) /\
    calls w' = setup_calls Testbench ++ repeat (Sleep 20) 4.
Proof.
  apply (@X10_waits_until_running_is_read Testbench
           {| bootstrap := Boots; connect := Ret tt;
              state_reads := map (@Ret CaptureState)
                                 [Idle; Armed; eFINISHED; eFINISHED];
              fetch := fun _ => Ret sample_batch;
              send := fun _ => Ret tt;
              dispose_capture := Ret tt; dispose_port := Ret tt |}
           [Idle; Armed; eFINISHED; eFINISHED]).
  - reflexivity.
  - reflexivity.
  - reflexivity.
  - repeat constructor; discriminate.
Defined.

Lemma fetch_loop_run_any (script : Script) (pl : Platform)
      (recs : nat -> list bytes) (tail : list (outcome CaptureState))
      (mid : list CaptureState) :
  accepts (send pl) ->
  Forall (fun s => s <> eFINISHED) mid ->
  forall (j0 : nat) (w : World),
    counting w ->
    count is_fetch (calls w) = j0 ->
    (forall j, j < length mid ->
               exists r, fetch pl (j0 + j) = Ret r /\
                         delivers script r (recs (j0 + j))) ->
    runs (Session.fetch_until_finished script pl
            (map (@Ret CaptureState) mid ++ Ret eFINISHED :: tail))
         w (flat_map (fun j => Fetch :: map Send (recs j))
                     (seq j0 (length mid))) tail.
Proof.
  intros Hs Hmid.
  induction Hmid as [|s mid Hne Hrest IH]; intros j0 w Hw Hc Hf;
    cbn [map app Session.fetch_until_finished length seq flat_map].
  - eapply (@runs_bind _ _ _ _ w [] []); [apply runs_lift|].
    intros w' _ _ _ _. cbn [state_eqb negb]. apply runs_ret.
  - destruct (Hf 0 ltac:(cbn; lia)) as [r [Hr Hd]].
    rewrite Nat.add_0_r in Hr, Hd.
    eapply (@runs_bind _ _ _ _ w []
             ((Fetch :: map Send (recs j0))
              ++ flat_map (fun j => Fetch :: map Send (recs j))
                          (seq (S j0) (length mid))));
      [apply runs_lift|].
    intros w0 C0 _ _ F0. rewrite app_nil_r in C0.
    assert (Hs' : negb (state_eqb s eFINISHED) = true)
      by (destruct s; try reflexivity; congruence).
    rewrite Hs'.
    eapply runs_eq.
    + eapply (@runs_bind _ _ _ _ w0 [Fetch]).
      { apply (@fetch_run pl j0); [|exact Hr]. now rewrite C0. }
      intros w1 C1 _ _ F1.
      eapply (@runs_bind _ _ _ _ w1 (map Send (recs j0)));
        [now apply process_delivers|].
      intros w2 C2 _ _ F2.
      eapply (@runs_bind _ _ _ _ w2 []); [apply runs_incr; auto|].
      intros w3 C3 _ _ F3.
      apply (IH (S j0)).
      * auto.
      * rewrite C3, C2, C1, C0, app_nil_r, !count_app, Hc, count_fetch_sends.
        cbn. lia.
      * intros j Hj. destruct (Hf (S j) ltac:(cbn; lia)) as [r' [Hr' Hd']].
        replace (S j0 + j) with (j0 + S j) by lia. eauto.
    + reflexivity.
Qed.

Lemma sent_app (l l' : list Call) : sent (l ++ l') = sent l ++ sent l'.
Proof.
  induction l as [|c l IH]; [reflexivity|].
  destruct c; cbn [app sent]; rewrite IH; reflexivity.
Qed.

Lemma sent_sends (ps : list bytes) : sent (map Send ps) = ps.
Proof. induction ps as [|p ps IH]; [reflexivity|]. cbn. now rewrite IH. Qed.

Lemma sent_sleeps (n ms : nat) : sent (repeat (Sleep ms) n) = [].
Proof. induction n as [|n IH]; [reflexivity|exact IH]. Qed.

Lemma sent_passes (recs : nat -> list bytes) (js : list nat) :
  sent (flat_map (fun j => Fetch :: map Send (recs j)) js) = flat_map recs js.
Proof.
  induction js as [|j js IH]; [reflexivity|].
  cbn [flat_map app sent]. now rewrite sent_app, sent_sends, IH.
Qed.

(** X11.  What goes over the data socket in a run.  Once Running has been
    read, every reading other than Finished (Running, but also Idle or
    Armed) starts a pass.  In a run in which nothing fails, the writes to the
    data socket are exactly the records of the fetched batches, batch after
    batch in the order of the fetches and record after record within a
    batch: nothing is written before, between or after them, and there are
    as many fetches as readings between the first Running and Finished. *)
Theorem X11_stream_of_a_run :
  forall (script : Script) (pl : Platform) (pre mid : list CaptureState)
         (tail : list (outcome CaptureState)) (recs : nat -> list bytes),
    bootstrap pl = Boots -> connect pl = Ret tt ->
    Forall (fun s => s <> eRUNNING) pre ->
    Forall (fun s => s <> eFINISHED) mid ->
    state_reads pl = map (@Ret CaptureState) pre
                     ++ Ret eRUNNING :: map (@Ret CaptureState) mid
                     ++ Ret eFINISHED :: tail ->
    (forall j, j < length mid ->
               exists r, fetch pl j = Ret r /\ delivers script r (recs j)) ->
    accepts (send pl) ->
    dispose_capture pl = Ret tt -> dispose_port pl = Ret tt ->
    exists w',
      Session.main script pl initial = (w', Ret tt) /\
      sent (calls w') = flat_map recs (seq 0 (length mid)) /\
      count is_fetch (calls w') = length mid.
Proof.
  intros script pl pre mid tail recs Hb Hc Hpre Hmid Hreads Hf Hs Hdc Hdp.
  destruct (@setup_boots script pl Hb Hc) as [w1 [H1 [C1 [D1 E1]]]].
  assert (Hrest :
    runs (rest <- Session.wait_until_running (state_reads pl) ;;
          set_capture_count 0 ;;
          _ <- Session.fetch_until_finished script pl rest ;;
          call CloseData (Ret tt) ;; call CloseWeights (Ret tt))
         w1
         (repeat (Sleep 20) (length pre)
          ++ flat_map (fun j => Fetch :: map Send (recs j))
                      (seq 0 (length mid))
          ++ [CloseData] ++ [CloseWeights]) tt).
  { rewrite Hreads.
    eapply runs_bind; [now apply wait_run|].
    intros w2 C2 _ _ _.
    apply runs_set_count. intros w2' C2' _ _ F2.
    eapply runs_bind.
    { apply (@fetch_loop_run_any script pl recs tail mid Hs Hmid 0).
      - exact F2.
      - now rewrite C2', C2, C1, count_app, count_fetch_setup,
          count_fetch_sleeps.
      - exact Hf. }
    intros w3 C3 _ _ _.
    eapply runs_bind; [apply runs_call|].
    intros w4 C4 _ _ _. apply runs_call. }
  destruct Hrest as [w5 [H5 [C5 [D5 [E5 _]]]]].
  assert (Hbody : Session.body script pl initial = (w5, Ret tt)).
  { unfold Session.body. erewrite bind_run by exact H1. exact H5. }
  destruct (@dispose_run pl w5 Hdc Hdp) as [w6 [H6 [C6 _]]].
  exists w6. unfold Session.main, try_finally. rewrite Hbody, H6.
  split; [reflexivity|].
  rewrite C6, C5, C1, D5, E5, D1, E1. split.
  - rewrite !sent_app, sent_sleeps, sent_passes.
    destruct script; cbn [setup_calls sent app]; rewrite ?app_nil_r;
      reflexivity.
  - rewrite !count_app, count_fetch_setup, count_fetch_sleeps,
      count_fetch_passes, length_seq. cbn. lia.
Qed.

Lemma X11_witness :
  exists w',
    Session.main Testbench
      {| bootstrap := Boots; connect := Ret tt;
         state_reads := map (@Ret CaptureState) [Idle]
                        ++ Ret eRUNNING
                           :: map (@Ret CaptureState) [eRUNNING; Armed]
                        ++ Ret eFINISHED :: [];
         fetch := fun _ => Ret sample_batch;
         send := fun _ => Ret tt;
         dispose_capture := Ret tt; dispose_port := Ret tt |} initial
    = (w', Ret tt) /\
    sent (calls w') = flat_map (fun _ => [sample_record]) (seq 0 2) /\
    count is_fetch (calls w') = 2.
Proof.
  apply (@X11_stream_of_a_run Testbench
           {| bootstrap := Boots; connect := Ret tt;
              state_reads := map (@Ret CaptureState) [Idle]
                             ++ Ret eRUNNING
                                :: map (@Ret CaptureState) [eRUNNING; Armed]
                             ++ Ret eFINISHED :: [];
              fetch := fun _ => Ret sample_batch;
              send := fun _ => Ret tt;
              dispose_capture := Ret tt; dispose_port := Ret tt |}
           [Idle] [eRUNNING; Armed] [] (fun _ => [sample_record])).
  - reflexivity.
  - reflexivity.
  - repeat constructor; discriminate.
  - repeat constructor; discriminate.
  - reflexivity.
  - intros j _. exists sample_batch. split; [reflexivity|].
    exact sample_batch_delivers.
  - intros n. reflexivity.
  - reflexivity.
  - reflexivity.
Defined.

(** ** The finally block when something has gone wrong *)

(** X12.  A Dispose that raises.  When the capture has been created and
    [DemoCapture.Dispose()] raises, the finally block stops there: the port
    is not disposed, [DemoCapture] is not reset to None, and the exception of
    the Dispose is what the run raises, in place of the exception of the
    body if there was one. *)
Theorem X12_failed_dispose_leaves_the_port :
  forall (script : Script) (pl : Platform) (e : exception)
         (w1 : World) (o : outcome unit),
    Session.body script pl initial = (w1, o) -> o <> Pending ->
    capture_created pl = true ->
    dispose_capture pl = Raise e ->
    exists w2,
      Session.main script pl initial = (w2, Raise e) /\
      calls w2 = calls w1 ++ [DisposeCapture] /\
      DemoCapture w2 = true.
Proof.
  intros script pl e w1 o Hbody Ho Hcreated He.
  destruct (@body_frame script pl w1 o Hbody) as [D1 _].
  rewrite Hcreated in D1.
  assert (Hd : Session.dispose pl w1 = (log DisposeCapture w1, Raise e)).
  { unfold Session.dispose, bind. rewrite D1. unfold call. now rewrite He. }
  exists (log DisposeCapture w1).
  unfold Session.main, try_finally. rewrite Hbody.
  destruct o as [[]|e0|]; [| |congruence]; rewrite Hd;
    (split; [reflexivity|]); (split; [reflexivity|exact D1]).
Qed.

Lemma X12_witness :
  exists w2,
    Session.main Testbench undisposable_platform initial
    = (w2, Raise (TestbenchPortException "Dispose")) /\
    calls w2 = [Start; Sleep 2000; Fetch] ++ [DisposeCapture] /\
    DemoCapture w2 = true.
Proof.
  apply (@X12_failed_dispose_leaves_the_port
           Testbench undisposable_platform
           (TestbenchPortException "Dispose")
           (log Fetch (log (Sleep 2000) (log Start
              (mkWorld [] true true None (Some 0)))))
           (Raise (TestbenchPortException "Fetch"))).
  - reflexivity.
  - discriminate.
  - reflexivity.
  - reflexivity.
Defined.

(** X13.  An error during the set-up.  The finally block disposes exactly
    the objects that had been assigned when the set-up raised, and the run
    makes no other call: nothing when the error comes before the port
    exists, the port alone when it comes before the capture exists, the
    capture and then the port after that; a connect that is refused (EdgeRL
    script) comes after the start of the capture and is followed by the two
    disposals only.  In every case the error goes on to the caller. *)
Theorem X13_setup_errors :
  forall (script : Script) (pl : Platform) (e : exception),
    dispose_capture pl = Ret tt -> dispose_port pl = Ret tt ->
    (bootstrap pl = FailsBeforePort e ->
     Session.main script pl initial = (initial, Raise e)) /\
    (bootstrap pl = FailsBeforeCapture e ->
     exists w, Session.main script pl initial = (w, Raise e) /\
               calls w = [DisposePort]) /\
    (bootstrap pl = FailsBeforeStart e ->
     exists w, Session.main script pl initial = (w, Raise e) /\
               calls w = [DisposeCapture; DisposePort]) /\
    (bootstrap pl = Boots -> script = EdgeRL -> connect pl = Raise e ->
     exists w, Session.main script pl initial = (w, Raise e) /\
               calls w = [Start; Connect; DisposeCapture; DisposePort]).
Proof.
  intros script pl e Hdc Hdp.
  unfold Session.main, try_finally, Session.body, Session.setup,
    Session.dispose.
  repeat split.
  - intros Hb. rewrite Hb. reflexivity.
  - intros Hb. rewrite Hb. unfold bind, call, raise, set_DemoMAPort,
      set_DemoCapture, ret. cbn. rewrite Hdp. cbn.
    eexists. split; reflexivity.
  - intros Hb. rewrite Hb. unfold bind, call, raise, set_DemoMAPort,
      set_DemoCapture, ret. cbn. rewrite Hdc. cbn. rewrite Hdp. cbn.
    eexists. split; reflexivity.
  - intros Hb -> Hc. rewrite Hb. unfold bind, call, raise, set_DemoMAPort,
      set_DemoCapture, ret. cbn. rewrite Hc. cbn. rewrite Hdc. cbn.
    rewrite Hdp. cbn. eexists. split; reflexivity.
Qed.

Lemma X13_witness :
  exists w,
    Session.main EdgeRL refused_platform initial
    = (w, Raise (Exc "ConnectionRefusedError" "")) /\
    calls w = [Start; Connect; DisposeCapture; DisposePort].
Proof.
  apply (proj2 (proj2 (proj2
           (@X13_setup_errors EdgeRL refused_platform
              (Exc "ConnectionRefusedError" "") eq_refl eq_refl))));
    reflexivity.
Defined.

(** ** The search for the configuration file *)

Lemma contains_occurs (name path : string) :
  Config.contains name path = true ->
  exists m, String.substring m (String.length name) path = name.
Proof.
  unfold Config.contains.
  destruct (String.index 0 name path) as [m|] eqn:E; [|discriminate].
  intros _. exists m. exact (String.index_correct1 _ _ _ _ E).
Qed.

Lemma contains_nowhere (name path : string) :
  name <> String.EmptyString ->
  Config.contains name path = false ->
  forall m, String.substring m (String.length name) path <> name.
Proof.
  unfold Config.contains. intros Hne.
  destruct (String.index 0 name path) as [m|] eqn:E; [discriminate|].
  intros _ m. exact (String.index_correct3 0 m _ _ E Hne (Nat.le_0_l m)).
Qed.

Lemma scan_none (name : string) (paths : list string) (acc : option string) :
  Forall (fun q => Config.contains name q = false) paths ->
  Config.scan name paths acc = acc.
Proof.
  intros H. revert acc. induction H as [|q paths Hq Hrest IH]; intros acc.
  - reflexivity.
  - cbn [Config.scan]. rewrite Hq. apply IH.
Qed.

Lemma scan_app (name : string) (pre post : list string) (acc : option string) :
  Config.scan name (pre ++ post) acc
  = Config.scan name post (Config.scan name pre acc).
Proof.
  revert acc; induction pre as [|q pre IH]; intros acc; [reflexivity|].
  cbn [app Config.scan]. apply IH.
Qed.

Lemma scan_of_some (name : string) (paths : list string) (q : string) :
  Config.scan name paths (Some q) <> None.
Proof.
  revert q. induction paths as [|q' paths IH]; intros q; [discriminate|].
  cbn [Config.scan]. destruct (Config.contains name q'); apply IH.
Qed.

Lemma scan_some (name : string) (p : string) (paths : list string) :
  forall acc,
    Config.scan name paths acc = Some p ->
    (exists pre post,
        paths = pre ++ p :: post /\ Config.contains name p = true /\
        Forall (fun q => Config.contains name q = false) post) \/
    (acc = Some p /\ Forall (fun q => Config.contains name q = false) paths).
Proof.
  induction paths as [|q paths IH]; intros acc H.
  - right. split; [exact H|constructor].
  - cbn [Config.scan] in H. destruct (IH _ H) as [[pre [post [E [Hp Hpost]]]]|[E Hall]].
    + left. exists (q :: pre), post. rewrite E. repeat split; assumption.
    + destruct (Config.contains name q) eqn:Eq.
      * left. injection E as <-. exists [], paths. repeat split; assumption.
      * right. split; [exact E|]. constructor; assumption.
Qed.

(** X14.  The configuration file that is used.  Of the paths the glob
    yields, the search keeps the last one in whose text the file name
    occurs (anywhere in the path: a directory of that name or a copy with a
    suffix count as well, and a later match replaces an earlier one); it
    raises FileNotFoundError exactly when the name occurs in none of them. *)
Theorem X14_last_matching_path_wins :
  forall (name : string) (paths : list string) (p : string),
    (Config.find name paths = Ret p <->
     exists pre post,
       paths = pre ++ p :: post /\ Config.contains name p = true /\
       Forall (fun q => Config.contains name q = false) post) /\
    (Config.find name paths = Raise (Config.FileNotFoundError name) <->
     Forall (fun q => Config.contains name q = false) paths) /\
    (Config.contains name p = true ->
     exists m, String.substring m (String.length name) p = name) /\
    (name <> String.EmptyString -> Config.contains name p = false ->
     forall m, String.substring m (String.length name) p <> name).
Proof.
  intros name paths p. unfold Config.find.
  split; [|split; [|split; [apply contains_occurs|apply contains_nowhere]]].
  - split.
    + destruct (Config.scan name paths None) as [p'|] eqn:E; [|discriminate].
      intros H. apply Ret_inj in H. subst p'.
      destruct (scan_some _ _ _ E) as [Hl|[Hr _]]; [exact Hl|discriminate].
    + intros [pre [post [-> [Hp Hpost]]]].
      rewrite scan_app. cbn [Config.scan]. rewrite Hp.
      now rewrite scan_none.
  - split.
    + destruct (Config.scan name paths None) as [p'|] eqn:E; [discriminate|].
      intros _. clear p.
      induction paths as [|q paths IH]; [constructor|].
      cbn [Config.scan] in E.
      destruct (Config.contains name q) eqn:Eq.
      * exfalso. exact (scan_of_some _ _ _ E).
      * constructor; [exact Eq|]. apply IH. exact E.
    + intros Hall. now rewrite scan_none.
Qed.

(** ** The console loop of the workstation script *)

Lemma read_loop_until_c (pre post : list string) :
  ~ In "c"%string pre ->
  workstation_script.read_loop (pre ++ "c"%string :: post)
  = (map workstation_script.Printed (pre ++ ["c"%string]), Ret tt).
Proof.
  induction pre as [|msg pre IH]; intros Hnot; [reflexivity|].
  cbn [app workstation_script.read_loop map].
  destruct (String.eqb_spec msg "c") as [->|Hne].
  - exfalso. apply Hnot. now left.
  - rewrite IH; [reflexivity|]. intros Hin. apply Hnot. now right.
Qed.

Lemma read_loop_eof (lines : list string) :
  ~ In "c"%string lines ->
  workstation_script.read_loop lines
  = (map workstation_script.Printed lines,
     Raise workstation_script.EOFError).
Proof.
  induction lines as [|msg lines IH]; intros Hnot; [reflexivity|].
  cbn [workstation_script.read_loop map].
  destruct (String.eqb_spec msg "c") as [->|Hne].
  - exfalso. apply Hnot. now left.
  - rewrite IH; [reflexivity|]. intros Hin. apply Hnot. now right.
Qed.

Lemma close_loop_all (objects : list (outcome unit)) :
  Forall (fun o => o = Ret tt) objects ->
  forall k,
    workstation_script.close_loop k objects
    = (map workstation_script.Closed (seq k (length objects)), Ret tt).
Proof.
  induction 1 as [|o objects Ho Hrest IH]; intros k; [reflexivity|].
  subst o. cbn [workstation_script.close_loop length seq map].
  now rewrite IH.
Qed.

Lemma close_loop_fail (before after_ : list (outcome unit))
      (bad : outcome unit) :
  Forall (fun o => o = Ret tt) before -> bad <> Ret tt ->
  forall k,
    workstation_script.close_loop k (before ++ bad :: after_)
    = (map workstation_script.Closed (seq k (length before + 1)), bad).
Proof.
  intros Hb Hbad. induction Hb as [|o before Ho Hrest IH]; intros k.
  - cbn [app workstation_script.close_loop length Nat.add seq map].
    destruct bad as [[]|e|]; [congruence|reflexivity|reflexivity].
  - subst o. cbn [app workstation_script.close_loop length Nat.add seq map].
    now rewrite IH.
Qed.

(** X15.  [input_parser] echoes every line up to and including the first
    line that is exactly "c", reads nothing after it, and then closes all
    the objects it was given, each once, in the order of the arguments
    (their closes returning); no object is closed before the "c". *)
Theorem X15_input_parser_closes_on_c :
  forall (pre post : list string) (objects : list (outcome unit)),
    ~ In "c"%string pre ->
    Forall (fun o => o = Ret tt) objects ->
    workstation_script.input_parser (pre ++ "c"%string :: post) objects
    = (map workstation_script.Printed (pre ++ ["c"%string])
       ++ map workstation_script.Closed (seq 0 (length objects)),
       Ret tt).
Proof.
  intros pre post objects Hnot Hobjects.
  unfold workstation_script.input_parser.
  rewrite (@read_loop_until_c pre post Hnot).
  rewrite (@close_loop_all objects Hobjects 0).
  reflexivity.
Qed.

Lemma X15_witness :
  workstation_script.input_parser
    (["a"; "cc"] ++ "c" :: ["d"])%string [Ret tt; Ret tt]
  = (map workstation_script.Printed (["a"; "cc"] ++ ["c"])%string
     ++ map workstation_script.Closed (seq 0 (length [Ret tt; Ret tt])),
     Ret tt).
Proof.
  apply (@X15_input_parser_closes_on_c
           ["a"; "cc"]%string ["d"%string] [Ret tt; Ret tt]).
  - intros [H|[H|[]]]; discriminate.
  - repeat constructor.
Defined.

(** X16.  When the input ends before a line "c" has been read,
    [input_parser] has echoed every line, raises the EOFError of [input()]
    and closes none of its objects. *)
Theorem X16_input_parser_end_of_input :
  forall (lines : list string) (objects : list (outcome unit)),
    ~ In "c"%string lines ->
    workstation_script.input_parser lines objects
    = (map workstation_script.Printed lines,
       Raise workstation_script.EOFError).
Proof.
  intros lines objects Hnot. unfold workstation_script.input_parser.
  now rewrite (@read_loop_eof lines Hnot).
Qed.

Lemma X16_witness :
  workstation_script.input_parser ["a"; "C"]%string [Ret tt]
  = (map workstation_script.Printed ["a"; "C"]%string,
     Raise workstation_script.EOFError).
Proof.
  apply (@X16_input_parser_end_of_input ["a"; "C"]%string [Ret tt]).
  intros [H|[H|[]]]; discriminate.
Defined.

(** X17.  A close that fails in [input_parser].  After the "c", when the
    close of one object does not return, the objects before it have been
    closed, that close has been attempted, the objects after it are left
    open, and [input_parser] comes to what that close came to. *)
Theorem X17_input_parser_failed_close :
  forall (pre post : list string) (before after_ : list (outcome unit))
         (bad : outcome unit),
    ~ In "c"%string pre ->
    Forall (fun o => o = Ret tt) before -> bad <> Ret tt ->
    workstation_script.input_parser (pre ++ "c"%string :: post)
                                    (before ++ bad :: after_)
    = (map workstation_script.Printed (pre ++ ["c"%string])
       ++ map workstation_script.Closed (seq 0 (length before + 1)),
       bad).
Proof.
  intros pre post before after_ bad Hnot Hbefore Hbad.
  unfold workstation_script.input_parser.
  rewrite (@read_loop_until_c pre post Hnot).
  rewrite (@close_loop_fail before after_ bad Hbefore Hbad 0).
  reflexivity.
Qed.

Lemma X17_witness :
  workstation_script.input_parser ([] ++ "c" :: [])%string
    ([Ret tt] ++ Raise (Exc "OSError" "") :: [Ret tt])
  = (map workstation_script.Printed ([] ++ ["c"])%string
     ++ map workstation_script.Closed (seq 0 (length [Ret tt] + 1)),
     Raise (Exc "OSError" "")).
Proof.
  apply (@X17_input_parser_failed_close
           [] [] [Ret tt] [Ret tt] (Raise (Exc "OSError" ""))).
  - intros [].
  - repeat constructor.
  - discriminate.
Defined.
